(** * bridge-marker-dp: the device supervisor and the per-bridge plugin

    A shallow embedding of [pkg/plugin] (device controller, supervised
    start wrapper, bridge device plugin, socket path resolver) and the
    properties its specification states about it.

    Conventions of the embedding:
    - Go [int] and [time.Duration] are [Z]; a slice is a [list], a nil slice
      is [None] where the code tests for nil.
    - A pointer to a message or to a plugin is modelled by the value it
      points to; a pointer that the code returns and that a property
      calls "non-nil" is an [option].
    - A channel is an identity in a [world] that records which channels have
      been closed and which goroutines have been spawned.
    - Calls answered by the environment (the kernel, the file system, the
      kubelet, the scheduler's choice in a [select]) are given as inputs.
    - A Go [map] is a [gmap]; ranging over it visits its entries in an
      arbitrary order, so a range loop is stated for every permutation of
      the entries.
    - A run-time panic is the [None] of an [option] result, or an
      explicit [Panicked] outcome. *)

From Stdlib Require Import ZArith Lia Ascii String DecimalString.
From Stdlib Require DecimalZ.
From stdpp Require Import base gmap strings list fin_maps.

Local Open Scope Z_scope.

(** ** Go values *)

(** [time.Duration]: a count of nanoseconds. *)
Definition Duration := Z.
Definition Second : Duration := 1000000000.

(** An [error] value; the nil error is [None] of [option error]. *)
Definition error := string.

(** [l[i]] on a slice: out of range is a run-time panic ([None]). *)
Definition go_index {A} (l : list A) (i : Z) : option A :=
  if i <? 0 then None else l !! Z.to_nat i.

(** [len(l)] as a Go [int]. *)
Definition len {A} (l : list A) : Z := Z.of_nat (length l).

(** Channels of type [chan struct{}] are only ever closed, never sent on:
    a channel is an identity, and the world remembers the closed ones. *)
Definition chan := nat.

(** ** The [Device] interface

    [Start] is answered by the environment (it serves a socket and talks to
    the kubelet); the two getters are observations of the plugin. *)
Class Device (D : Type) := {
  GetDeviceName : D → string;
  GetInitialized : D → bool
}.

(** ** Supervised-start wrapper: [controlledDevice] (manager) *)

Definition defaultBackoffTime : list Duration :=
  [1 * Second; 2 * Second; 5 * Second; 10 * Second].

Section Wrapper.
Context {D : Type} `{Device D}.

(** The goroutine spawned by [controlledDevice.Start]: the variables its
    closure captures. *)
Record restartLoop := {
  loop_dev : D;
  loop_stop : chan;
  loop_backoff : list Duration
}.

Record world := {
  next_chan : chan;
  closed_chans : gset chan;
  goroutines : list restartLoop
}.

Record controlledDevice := {
  devicePlugin : D;
  started : bool;
  stopChan : option chan;
  backoff : option (list Duration)
}.

(** [close(ch)]: panics on a nil channel and on a closed channel. *)
Definition close_chan (ch : option chan) (w : world) : option world :=
  match ch with
  | None => None
  | Some c =>
      if decide (c ∈ closed_chans w) then None
      else Some {| next_chan := next_chan w;
                   closed_chans := {[c]} ∪ closed_chans w;
                   goroutines := goroutines w |}
  end.

(** [func (c *controlledDevice) Start()] *)
Definition controlledDevice_Start (c : controlledDevice) (w : world)
  : controlledDevice * world :=
  if started c then (c, w)
  else
    let stop := next_chan w in
    let backoff' :=
      match backoff c with
      | None => defaultBackoffTime
      | Some b => b
      end in
    let loop := {| loop_dev := devicePlugin c;
                   loop_stop := stop;
                   loop_backoff := backoff' |} in
    ({| devicePlugin := devicePlugin c;
        started := true;
        stopChan := Some stop;
        backoff := backoff c |},
     {| next_chan := S (next_chan w);
        closed_chans := closed_chans w;
        goroutines := goroutines w ++ [loop] |}).

(** [func (c *controlledDevice) Stop()] *)
Definition controlledDevice_Stop (c : controlledDevice) (w : world)
  : option (controlledDevice * world) :=
  if negb (started c) then Some (c, w)
  else
    w' ← close_chan (stopChan c) w;
    Some ({| devicePlugin := devicePlugin c;
             started := false;
             stopChan := None;
             backoff := backoff c |}, w').

(** A restart loop is live while its stop channel is open. *)
Definition live (w : world) (l : restartLoop) : Prop :=
  loop_stop l ∉ closed_chans w.
End Wrapper.

Arguments restartLoop D : clear implicits.
Arguments world D : clear implicits.
Arguments controlledDevice D : clear implicits.

(** *** The body of the restart goroutine

    One iteration is answered by the environment twice: with what
    [dev.Start(stop)] returns, and with the case the [select] takes. *)
Inductive selectCase := StopClosed | TimerFired.

Record iteration := {
  start_err : option error;
  selected : selectCase
}.

Inductive loopEvent :=
| CallStart
| WaitFor (d : Duration)
| LoopReturn
| LoopPanic.

(** [retries = int(math.Min(float64(retries+1), float64(len(backoff)-1)))]
    on error, [retries = 0] otherwise.  The conversions through [float64]
    are exact for every index of a slice that fits in memory. *)
Definition next_retries (backoff : list Duration) (retries : Z)
  (err : option error) : Z :=
  match err with
  | Some _ => Z.min (retries + 1) (len backoff - 1)
  | None => 0
  end.

(** The [for] loop run against a finite prefix of the environment's
    answers; the trace ends where the answers end. [backoff[retries]] is
    evaluated when the [select] is entered, whichever case is taken. *)
Fixpoint restart_loop (backoff : list Duration) (retries : Z)
  (its : list iteration) : list loopEvent :=
  match its with
  | [] => []
  | it :: rest =>
      let retries' := next_retries backoff retries (start_err it) in
      CallStart ::
        match go_index backoff retries' with
        | None => [LoopPanic]
        | Some d =>
            match selected it with
            | StopClosed => [LoopReturn]
            | TimerFired => WaitFor d :: restart_loop backoff retries' rest
            end
        end
  end.

(** The retry index after a sequence of results of [dev.Start]. *)
Definition retries_after (backoff : list Duration) (retries : Z)
  (errs : list (option error)) : Z :=
  foldl (next_retries backoff) retries errs.

(** An iteration whose start failed, respectively succeeded, and whose
    backoff timer fired. *)
Definition failed_start (e : error) : iteration :=
  {| start_err := Some e; selected := TimerFired |}.
Definition clean_start : iteration :=
  {| start_err := None; selected := TimerFired |}.

(** The wait P5 of the specification names for the k-th consecutive failed
    start (the specification's wording, for comparison with the loop). *)
Definition spec_backoff_wait (backoff : list Duration) (k : Z)
  : option Duration :=
  go_index backoff (Z.min (k - 1) (len backoff - 1)).

(** ** Device supervisor: [BridgeDeviceController] (manager)

    The fields [newPlugins], [stop] and [startedPluginsMutex] are the
    plumbing of [Run]: the operations below are the critical sections the
    mutex serialises. *)

(** [for ... := range xs { body }] in the order [xs], stopping at a panic. *)
Fixpoint go_range {A S : Type} (body : A → S → option S) (xs : list A)
  (s : S) : option S :=
  match xs with
  | [] => Some s
  | x :: rest => s' ← body x s; go_range body rest s'
  end.

Section Controller.
Context {D : Type} `{Device D}.

Record BridgeDeviceController := {
  permanentPlugins : gmap string D;
  startedPlugins : gmap string (controlledDevice D);
  maxDevices : Z;
  ctl_backoff : option (list Duration)
}.

(** The supervisor together with the channels and goroutines around it. *)
Definition supervisor : Type := BridgeDeviceController * world D.

Definition set_startedPlugins (c : BridgeDeviceController)
  (m : gmap string (controlledDevice D)) : BridgeDeviceController :=
  {| permanentPlugins := permanentPlugins c;
     startedPlugins := m;
     maxDevices := maxDevices c;
     ctl_backoff := ctl_backoff c |}.

(** [func NewBridgeDeviceController(permanentPlugins []Device, maxDevices int)] *)
Definition NewBridgeDeviceController (plugins : list D) (maxDevices : Z)
  : BridgeDeviceController :=
  let permanentPluginsMap :=
    foldl (λ m p, <[GetDeviceName p := p]> m) (∅ : gmap string D) plugins in
  {| permanentPlugins := permanentPluginsMap;
     startedPlugins := ∅;
     maxDevices := maxDevices;
     ctl_backoff := Some defaultBackoffTime |}.

Definition new_world : world D :=
  {| next_chan := 0%nat; closed_chans := ∅; goroutines := [] |}.

(** [func (c *BridgeDeviceController) stopDevice(resourceName string)].
    The map holds wrappers by value: [Stop] acts on the copy read out of
    the map, which is then dropped with the entry. *)
Definition stopDevice (resourceName : string) (s : supervisor)
  : option supervisor :=
  let '(c, w) := s in
  match startedPlugins c !! resourceName with
  | Some dev =>
      '(_, w') ← controlledDevice_Stop dev w;
      Some (set_startedPlugins c (delete resourceName (startedPlugins c)), w')
  | None => Some (c, w)
  end.

(** [func (c *BridgeDeviceController) startDevice(resourceName string, dev Device)] *)
Definition startDevice (resourceName : string) (dev : D) (s : supervisor)
  : option supervisor :=
  '(c, w) ← stopDevice resourceName s;
  let controlledDev :=
    {| devicePlugin := dev; started := false; stopChan := None;
       backoff := ctl_backoff c |} in
  let '(controlledDev', w') := controlledDevice_Start controlledDev w in
  Some (set_startedPlugins c
          (<[resourceName := controlledDev']> (startedPlugins c)), w').

(** [startPermanentPlugins], ranging over [permanentPlugins] in [order]. *)
Definition startPermanentPlugins (order : list (string * D))
  (s : supervisor) : option supervisor :=
  go_range (λ '(name, dev), startDevice name dev) order s.

(** [stopAllPlugins], ranging over the keys of [startedPlugins] in
    [order]; each iteration deletes the entry it is visiting only. *)
Definition stopAllPlugins (order : list string) (s : supervisor)
  : option supervisor :=
  go_range stopDevice order s.

(** [startNewPlugin]. *)
Definition startNewPlugin (device : D) (s : supervisor)
  : option supervisor :=
  startDevice (GetDeviceName device) device s.

(** The critical sections of [Run]: starting the permanent plugins, a
    plugin received on [newPlugins], and the shutdown after [stop]. *)
Inductive supervisorOp :=
| OpStartPermanent (order : list (string * D))
| OpStartNew (device : D)
| OpStopAll (order : list string).

Definition run_op (op : supervisorOp) (s : supervisor) : option supervisor :=
  match op with
  | OpStartPermanent order => startPermanentPlugins order s
  | OpStartNew device => startNewPlugin device s
  | OpStopAll order => stopAllPlugins order s
  end.

(** A range visits every entry of the map once, in some order. *)
Definition admissible (s : supervisor) (op : supervisorOp) : Prop :=
  match op with
  | OpStartPermanent order => order ≡ₚ map_to_list (permanentPlugins s.1)
  | OpStartNew _ => True
  | OpStopAll order => order ≡ₚ (map_to_list (startedPlugins s.1)).*1
  end.

(** The states of a supervisor built from [plugins]; a step that panics
    leads nowhere. *)
Inductive reachable (plugins : list D) (n : Z) : supervisor → Prop :=
| reachable_new :
    reachable plugins n (NewBridgeDeviceController plugins n, new_world)
| reachable_op s op s' :
    reachable plugins n s →
    admissible s op →
    run_op op s = Some s' →
    reachable plugins n s'.

(** [func (c *BridgeDeviceController) Initialized() bool], ranging over
    [startedPlugins] in the order [entries]. *)
Fixpoint Initialized_range (entries : list (string * controlledDevice D))
  : bool :=
  match entries with
  | [] => true
  | (_, dev) :: rest =>
      if negb (GetInitialized (devicePlugin dev)) then false
      else Initialized_range rest
  end.

Definition Initialized (c : BridgeDeviceController) : bool :=
  Initialized_range (map_to_list (startedPlugins c)).
End Controller.

Arguments BridgeDeviceController D : clear implicits.
Arguments supervisor D : clear implicits.
Arguments supervisorOp D : clear implicits.

(** *** The invariant of the supervisor

    Every entry of [startedPlugins] is a started wrapper, filed under the
    name of its device, whose stop channel is open and belongs to a
    spawned restart loop of that device; every restart loop that is still
    live is the loop of the entry filed under its device's name; no two
    loops share a stop channel; the permanent plugins are filed under
    their names; and only channels already made have been closed. *)
Section SupervisorInvariant.
Context {D : Type} `{Device D}.

Definition wrapper_ok (w : world D) (name : string)
  (cd : controlledDevice D) : Prop :=
  started cd = true ∧
  GetDeviceName (devicePlugin cd) = name ∧
  ∃ ch l, stopChan cd = Some ch ∧ (ch ∉ closed_chans w) ∧
          l ∈ goroutines w ∧ loop_stop l = ch ∧
          loop_dev l = devicePlugin cd.

Definition loop_ok (c : BridgeDeviceController D) (w : world D)
  (l : restartLoop D) : Prop :=
  (loop_stop l < next_chan w)%nat ∧
  (live w l →
   ∃ cd, startedPlugins c !! GetDeviceName (loop_dev l) = Some cd ∧
         stopChan cd = Some (loop_stop l)).

Record supervisor_inv (s : supervisor D) : Prop := {
  inv_started :
    ∀ name cd, startedPlugins s.1 !! name = Some cd → wrapper_ok s.2 name cd;
  inv_loops : ∀ l, l ∈ goroutines s.2 → loop_ok s.1 s.2 l;
  inv_chans : NoDup (loop_stop <$> goroutines s.2);
  inv_permanent :
    ∀ name d, permanentPlugins s.1 !! name = Some d → GetDeviceName d = name;
  inv_closed : ∀ ch, ch ∈ closed_chans s.2 → (ch < next_chan s.2)%nat
}.
End SupervisorInvariant.

(** ** Socket path resolver

    [path/filepath] on a Unix system, after its documentation: [Clean]
    drops empty and [.] elements, lets [..] cancel the element before it
    (dropping it at the root, keeping it at the start of a relative path)
    and turns the empty result into [.]; [Join] joins the elements from the
    first non-empty one on with [/] and cleans the result. *)

(** [strings.Split(path, "/")] *)
Fixpoint path_elements (path : string) : list string :=
  match path with
  | EmptyString => [EmptyString]
  | String c rest =>
      if Ascii.eqb c "/"%char then EmptyString :: path_elements rest
      else match path_elements rest with
           | e :: es => String c e :: es
           | [] => [String c EmptyString]
           end
  end.

(** One element against the cleaned elements so far, last one first. *)
Definition clean_element (rooted : bool) (out : list string) (e : string)
  : list string :=
  if decide (e = "" ∨ e = ".") then out
  else if decide (e = "..") then
    match out with
    | top :: below => if decide (top = "..") then ".." :: out else below
    | [] => if rooted then [] else [".."]
    end
  else e :: out.

(** [strings.Join(elems, "/")] *)
Fixpoint join_slash (elems : list string) : string :=
  match elems with
  | [] => ""
  | [e] => e
  | e :: rest => e +:+ "/" +:+ join_slash rest
  end.

Definition is_rooted (path : string) : bool :=
  match path with
  | String c _ => Ascii.eqb c "/"%char
  | EmptyString => false
  end.

Definition clean_render (rooted : bool) (out : list string) : string :=
  (if rooted then "/" else "") +:+ join_slash (reverse out).

(** [filepath.Clean] *)
Definition filepath_Clean (path : string) : string :=
  if decide (path = "") then "."
  else
    let rooted := is_rooted path in
    let out := foldl (clean_element rooted) [] (path_elements path) in
    let cleaned := clean_render rooted out in
    if decide (cleaned = "") then "." else cleaned.

(** [filepath.Join] *)
Fixpoint filepath_Join (elem : list string) : string :=
  match elem with
  | [] => ""
  | e :: rest =>
      if decide (e = "") then filepath_Join rest
      else filepath_Clean (join_slash (e :: rest))
  end.

(** [pluginapi.DevicePluginPath], a constant of the kubelet's device-plugin
    API (k8s.io/kubelet/pkg/apis/deviceplugin/v1beta1), which this
    repository imports. *)
Definition DevicePluginPath : string := "/var/lib/kubelet/device-plugins/".

(** [func SocketPath(deviceName string) string];
    [fmt.Sprintf("kubevirt-%s.sock", deviceName)] is the concatenation. *)
Definition SocketPath (deviceName : string) : string :=
  filepath_Join [DevicePluginPath; "kubevirt-" +:+ deviceName +:+ ".sock"].

(** Link names the kernel accepts ([dev_valid_name]): non-empty, shorter
    than [IFNAMSIZ] = 16, neither [.] nor [..], and free of [/], [:] and
    white space. *)
Definition is_space (c : Ascii.ascii) : bool :=
  bool_decide (c ∈ [" "; "009"; "010"; "011"; "012"; "013"]%char).

Fixpoint has_char (p : Ascii.ascii → bool) (s : string) : bool :=
  match s with
  | EmptyString => false
  | String c rest => p c || has_char p rest
  end.

Definition valid_device_name (d : string) : bool :=
  negb (String.eqb d "") && (String.length d <? 16)%nat &&
  negb (String.eqb d ".") && negb (String.eqb d "..") &&
  negb (has_char (λ c, Ascii.eqb c "/"%char || Ascii.eqb c ":"%char || is_space c) d).

(** ** The kubelet's device-plugin messages ([pluginapi])

    The fields the plugin reads or writes; [Topology] of a device is always
    left nil. *)

Record pluginapi_Device := {
  ID : string;
  Health : string
}.

Definition Healthy : string := "Healthy".
Definition Unhealthy : string := "Unhealthy".

Record DeviceSpec := {
  ContainerPath : string;
  HostPath : string;
  Permissions : string
}.

Record Mount := {
  mount_ContainerPath : string;
  mount_HostPath : string;
  mount_ReadOnly : bool
}.

Record ContainerAllocateRequest := {
  DevicesIDs : list string
}.

Record AllocateRequest := {
  ContainerRequests : list ContainerAllocateRequest
}.

Record ContainerAllocateResponse := {
  Envs : gmap string string;
  Mounts : list Mount;
  Devices : list DeviceSpec;
  Annotations : gmap string string
}.

Record AllocateResponse := {
  ContainerResponses : list ContainerAllocateResponse
}.







(** [new(pluginapi.ContainerAllocateResponse)]: the zero value. *)
Definition new_ContainerAllocateResponse : ContainerAllocateResponse :=
  {| Envs := ∅; Mounts := []; Devices := []; Annotations := ∅ |}.

(** A [ListAndWatchResponse] is its [Devices]. *)
Definition ListAndWatchResponse := list pluginapi_Device.

(** ** Bridge plugin: [BridgeDevicePlugin] (device plugin) *)

Definition DeviceNamespace : string := "bridge.network.kubevirt.io".

(** [strconv.Itoa]: the decimal rendering of an [int]. *)
Definition Itoa (i : Z) : string := NilEmpty.string_of_int (Z.to_int i).

Record deviceHealth := {
  dh_DevId : string;
  dh_Health : string
}.

(** A [chan struct{}] field of the plugin: nil until [Start] makes it. *)
Inductive chanState := NilChan | OpenChan | ClosedChan.

(** The [*grpc.Server] field: nil until [Start] creates the server. *)
Inductive serverState := NoServer | Serving | ServerStopped.

Record BridgeDevicePlugin := {
  devs : list pluginapi_Device;
  server : serverState;
  socketPath : string;
  stop : chanState;
  deviceName : string;
  resourceName : string;
  done : chanState;
  initialized : bool;
  deregistered : chanState
}.

Definition set_devs (dpi : BridgeDevicePlugin) (ds : list pluginapi_Device)
  : BridgeDevicePlugin :=
  {| devs := ds; server := server dpi; socketPath := socketPath dpi;
     stop := stop dpi; deviceName := deviceName dpi;
     resourceName := resourceName dpi; done := done dpi;
     initialized := initialized dpi; deregistered := deregistered dpi |}.

Definition set_server (dpi : BridgeDevicePlugin) (s : serverState)
  : BridgeDevicePlugin :=
  {| devs := devs dpi; server := s; socketPath := socketPath dpi;
     stop := stop dpi; deviceName := deviceName dpi;
     resourceName := resourceName dpi; done := done dpi;
     initialized := initialized dpi; deregistered := deregistered dpi |}.

Definition set_done (dpi : BridgeDevicePlugin) (c : chanState)
  : BridgeDevicePlugin :=
  {| devs := devs dpi; server := server dpi; socketPath := socketPath dpi;
     stop := stop dpi; deviceName := deviceName dpi;
     resourceName := resourceName dpi; done := c;
     initialized := initialized dpi; deregistered := deregistered dpi |}.

Definition set_deregistered (dpi : BridgeDevicePlugin) (c : chanState)
  : BridgeDevicePlugin :=
  {| devs := devs dpi; server := server dpi; socketPath := socketPath dpi;
     stop := stop dpi; deviceName := deviceName dpi;
     resourceName := resourceName dpi; done := done dpi;
     initialized := initialized dpi; deregistered := c |}.

(** [func (dpi *BridgeDevicePlugin) setInitialized(initialized bool)] *)
Definition setInitialized (dpi : BridgeDevicePlugin) (b : bool)
  : BridgeDevicePlugin :=
  {| devs := devs dpi; server := server dpi; socketPath := socketPath dpi;
     stop := stop dpi; deviceName := deviceName dpi;
     resourceName := resourceName dpi; done := done dpi;
     initialized := b; deregistered := deregistered dpi |}.

(** [func NewBridgeDevicePlugin(deviceName string, maxDevices int)];
    the counting loop [for i := 0; i < maxDevices; i++] visits
    [seqZ 0 maxDevices] (nothing when [maxDevices] is not positive). *)
Definition NewBridgeDevicePlugin (deviceName' : string) (maxDevices : Z)
  : BridgeDevicePlugin :=
  let serverSock := SocketPath deviceName' in
  let dpi :=
    {| devs := []; server := NoServer; socketPath := serverSock;
       stop := NilChan; deviceName := deviceName';
       resourceName := DeviceNamespace +:+ "/" +:+ deviceName';
       done := NilChan; initialized := false; deregistered := NilChan |} in
  foldl (λ dpi i,
           let deviceId := deviceName dpi +:+ Itoa i in
           set_devs dpi (devs dpi ++ [{| ID := deviceId; Health := Healthy |}]))
        dpi (seqZ 0 maxDevices).

#[export] Instance BridgeDevicePlugin_Device : Device BridgeDevicePlugin := {
  GetDeviceName := deviceName;
  GetInitialized := initialized
}.

(** How a function that waits on the environment ends on a finite prefix of
    the environment's answers. *)
Inductive outcome (A : Type) :=
| Returned (a : A)
| Panicked
| Running.
Arguments Returned {A} a.
Arguments Panicked {A}.
Arguments Running {A}.

(** [IsChanClosed]: a receive on a nil or open channel is not ready. *)
Definition IsChanClosed (ch : chanState) : bool :=
  match ch with
  | ClosedChan => true
  | _ => false
  end.

(** [close(ch)] on a plugin channel. *)
Definition close_chanState (ch : chanState) : option chanState :=
  match ch with
  | OpenChan => Some ClosedChan
  | NilChan | ClosedChan => None
  end.

(** *** [ListAndWatch] *)

(** The case a [select] of [ListAndWatch] takes. *)
Inductive lawSelect :=
| RecvHealth (devHealth : deviceHealth)
| RecvStop
| RecvDone.

Definition set_Health (h : string) (dev : pluginapi_Device)
  : pluginapi_Device :=
  {| ID := ID dev; Health := h |}.

Record lawRun := {
  law_sent : list ListAndWatchResponse;
  law_plugin : BridgeDevicePlugin;
  law_result : outcome (option error)
}.

(** The [for]/[select] loop and the deregistration after it.  The slots are
    shared objects: the health written into them stays in [dpi.devs]. *)
Fixpoint ListAndWatch_loop (dpi : BridgeDevicePlugin) (evs : list lawSelect)
  : lawRun :=
  match evs with
  | [] => {| law_sent := []; law_plugin := dpi; law_result := Running |}
  | RecvHealth devHealth :: rest =>
      let dpi' := set_devs dpi (set_Health (dh_Health devHealth) <$> devs dpi) in
      let run := ListAndWatch_loop dpi' rest in
      {| law_sent := devs dpi' :: law_sent run;
         law_plugin := law_plugin run;
         law_result := law_result run |}
  | RecvStop :: _ | RecvDone :: _ =>
      match close_chanState (deregistered dpi) with
      | Some c =>
          {| law_sent := [[]];
             law_plugin := set_deregistered dpi c;
             law_result := Returned None |}
      | None =>
          {| law_sent := [[]]; law_plugin := dpi; law_result := Panicked |}
      end
  end.

(** [func (dpi *BridgeDevicePlugin) ListAndWatch(e, s)]; [law_sent] lists
    the responses handed to [s.Send]. *)
Definition ListAndWatch (dpi : BridgeDevicePlugin) (evs : list lawSelect)
  : lawRun :=
  let run := ListAndWatch_loop dpi evs in
  {| law_sent := devs dpi :: law_sent run;
     law_plugin := law_plugin run;
     law_result := law_result run |}.

(** *** The handlers without state (the log lines are not modelled) *)

(** [func (dpi *BridgeDevicePlugin) Allocate(ctx, r)] *)
Definition Allocate (dpi : BridgeDevicePlugin) (r : AllocateRequest)
  : option AllocateResponse * option error :=
  let containerResponse := new_ContainerAllocateResponse in
  let res := {| ContainerResponses := [containerResponse] |} in
  (Some res, None).




(** *** [stopDevicePlugin]: a function body with deferred calls

    A body runs in a frame: the plugin, the effects performed so far (in
    order), and the deferred calls, the most recently deferred first.  When
    the body returns or panics, the deferred calls run from the head of
    that list. *)

Inductive graceEnd := Deregistered | GraceElapsed.

Inductive stopEffect :=
| NewTicker (d : Duration)
| AwaitDeregistered (how : graceEnd)
| ServerStop
| SetInitialized (b : bool)
| RemoveSocket (path : string)
| TickerStop
| CloseDone.

Inductive deferredCall :=
| DeferCloseDoneIfOpen
| DeferTickerStop.

Record frame := {
  plugin : BridgeDevicePlugin;
  effects : list stopEffect;
  deferred : list deferredCall
}.

Inductive result (A : Type) :=
| Ret (a : A)
| Panic.
Arguments Ret {A} a.
Arguments Panic {A}.

Definition body (A : Type) : Type := frame → result A * frame.

#[export] Instance body_ret : MRet body := λ A a fr, (Ret a, fr).
#[export] Instance body_bind : MBind body := λ A B k m fr,
  match m fr with
  | (Ret a, fr') => k a fr'
  | (Panic, fr') => (Panic, fr')
  end.

Definition perform (e : stopEffect) : body unit := λ fr,
  (Ret (), {| plugin := plugin fr; effects := effects fr ++ [e];
              deferred := deferred fr |}).

Definition defer (d : deferredCall) : body unit := λ fr,
  (Ret (), {| plugin := plugin fr; effects := effects fr;
              deferred := d :: deferred fr |}).

Definition get_plugin : body BridgeDevicePlugin := λ fr, (Ret (plugin fr), fr).

Definition put_plugin (dpi : BridgeDevicePlugin) : body unit := λ fr,
  (Ret (), {| plugin := dpi; effects := effects fr; deferred := deferred fr |}).

Definition panic {A} : body A := λ fr, (Panic, fr).

(** What the file system answers to [os.Remove]. *)
Inductive removeResult :=
| Removed
| RemoveNotExist
| RemoveFailed (e : error).

(** What the environment decides during [stopDevicePlugin]: whether
    [ListAndWatch] closes [deregistered] within the second of grace, and
    the answer to the removal of the socket file. *)
Record stopEnv := {
  deregisters_in_grace : bool;
  remove_answer : removeResult
}.

(** [func (dpi *BridgeDevicePlugin) cleanup() error] *)
Definition cleanup (env : stopEnv) : body (option error) :=
  dpi ← get_plugin;
  perform (RemoveSocket (socketPath dpi));;
  match remove_answer env with
  | RemoveFailed e => mret (Some e)
  | Removed | RemoveNotExist => mret None
  end.

(** The deferred calls of [stopDevicePlugin]. *)
Definition run_deferredCall (d : deferredCall) : body unit :=
  match d with
  | DeferTickerStop => perform TickerStop
  | DeferCloseDoneIfOpen =>
      dpi ← get_plugin;
      if negb (IsChanClosed (done dpi)) then
        match close_chanState (done dpi) with
        | Some c => perform CloseDone;; put_plugin (set_done dpi c)
        | None => panic
        end
      else mret ()
  end.

(** The [select] on [dpi.deregistered] and the ticker. *)
Definition await_deregistered (env : stopEnv) : body unit :=
  dpi ← get_plugin;
  match deregistered dpi with
  | ClosedChan => perform (AwaitDeregistered Deregistered)
  | OpenChan =>
      if deregisters_in_grace env then
        put_plugin (set_deregistered dpi ClosedChan);;
        perform (AwaitDeregistered Deregistered)
      else perform (AwaitDeregistered GraceElapsed)
  | NilChan => perform (AwaitDeregistered GraceElapsed)
  end.

(** [dpi.server.Stop()] *)
Definition server_Stop : body unit :=
  dpi ← get_plugin;
  match server dpi with
  | NoServer => panic
  | Serving | ServerStopped =>
      perform ServerStop;; put_plugin (set_server dpi ServerStopped)
  end.

(** The statements of [stopDevicePlugin], in source order. *)
Definition stopDevicePlugin_body (env : stopEnv) : body (option error) :=
  defer DeferCloseDoneIfOpen;;
  perform (NewTicker (1 * Second));;
  defer DeferTickerStop;;
  await_deregistered env;;
  server_Stop;;
  (dpi ← get_plugin;
   perform (SetInitialized false);;
   put_plugin (setInitialized dpi false));;
  cleanup env.

(** Running the deferred calls: a panic in one does not stop the others. *)
Fixpoint run_deferred (ds : list deferredCall) (panicking : bool)
  (fr : frame) : bool * frame :=
  match ds with
  | [] => (panicking, fr)
  | d :: rest =>
      match run_deferredCall d fr with
      | (Ret _, fr') => run_deferred rest panicking fr'
      | (Panic, fr') => run_deferred rest true fr'
      end
  end.

Record stopRun := {
  stop_result : result (option error);
  stop_plugin : BridgeDevicePlugin;
  stop_effects : list stopEffect
}.

(** A call: the body, then its deferred calls. *)
Definition go_call (b : body (option error)) (dpi : BridgeDevicePlugin)
  : stopRun :=
  let '(r, fr) := b {| plugin := dpi; effects := []; deferred := [] |} in
  let '(panicking, fr') :=
    run_deferred (deferred fr)
      (match r with Panic => true | Ret _ => false end) fr in
  {| stop_result := if panicking then Panic else r;
     stop_plugin := plugin fr';
     stop_effects := effects fr' |}.

(** [func (dpi *BridgeDevicePlugin) stopDevicePlugin() error] *)
Definition stopDevicePlugin (env : stopEnv) (dpi : BridgeDevicePlugin)
  : stopRun :=
  go_call (stopDevicePlugin_body env) dpi.

(** The order the specification gives for the steps of the stop procedure
    (the specification's wording, for comparison with the function). *)
Definition spec_stop_order (how : graceEnd) (path : string)
  : list stopEffect :=
  [CloseDone; AwaitDeregistered how; ServerStop; SetInitialized false;
   RemoveSocket path].

(** The steps of a run that the specification lists: the ticker's
    creation and release are left out. *)
Definition is_listed (e : stopEffect) : bool :=
  match e with
  | NewTicker _ | TickerStop => false
  | _ => true
  end.

Definition listed_steps (es : list stopEffect) : list stopEffect :=
  filter (λ e, is_listed e = true) es.

(** *** [healthCheck] *)

(** [netlink.LinkOperState] *)
Inductive OperState :=
| OperUnknown
| OperNotPresent
| OperDown
| OperLowerLayerDown
| OperTesting
| OperDormant
| OperUp.

#[export] Instance OperState_eq_dec : EqDecision OperState.
Proof. solve_decision. Defined.

(** What [netlink.LinkByName] answers. *)
Inductive linkByName :=
| LinkFound (operState : OperState)
| LinkNotFoundError (e : error)
| LinkOtherError (e : error).

(** The errors of the calls that set the health loop up, nil when absent. *)
Record hcSetup := {
  NewHandle_err : option error;
  LinkSubscribe_err : option error;
  NewWatcher_err : option error;
  watcher_Add_err : option error;
  Stat_err : option error
}.

(** [fsnotify.Remove], a bit of [fsnotify.Op]. *)
Definition fsnotify_Remove : Z := 4.

(** The case a [select] of the health loop takes. *)
Inductive hcSelect :=
| HcStop
| HcLinkUpdate (name : string) (operState : OperState)
| HcFsEvent (name : string) (op : Z)
| HcWatcherError (e : error).

Record hcRun := {
  hc_published : list deviceHealth;
  hc_result : outcome (option error)
}.

(** The health sent on [dpi.health] for an operational state. *)
Definition publish_operState (operState : OperState) : deviceHealth :=
  if decide (operState = OperUp)
  then {| dh_DevId := ""; dh_Health := Healthy |}
  else {| dh_DevId := ""; dh_Health := Unhealthy |}.

(** The [for]/[select] loop of [healthCheck]. *)
Fixpoint healthCheck_loop (dpi : BridgeDevicePlugin) (evs : list hcSelect)
  : hcRun :=
  match evs with
  | [] => {| hc_published := []; hc_result := Running |}
  | HcStop :: _ => {| hc_published := []; hc_result := Returned None |}
  | HcLinkUpdate name operState :: rest =>
      let run := healthCheck_loop dpi rest in
      if decide (name = deviceName dpi) then
        {| hc_published := publish_operState operState :: hc_published run;
           hc_result := hc_result run |}
      else run
  | HcFsEvent name op :: rest =>
      if bool_decide (name = socketPath dpi) &&
         (Z.land op fsnotify_Remove =? fsnotify_Remove)
      then {| hc_published := []; hc_result := Returned None |}
      else healthCheck_loop dpi rest
  | HcWatcherError _ :: rest => healthCheck_loop dpi rest
  end.

Definition hc_fail (msg : string) (e : error) : hcRun :=
  {| hc_published := []; hc_result := Returned (Some (msg +:+ e)) |}.

(** [func (dpi *BridgeDevicePlugin) healthCheck() error] *)
Definition healthCheck (dpi : BridgeDevicePlugin) (setup : hcSetup)
  (link : linkByName) (evs : list hcSelect) : hcRun :=
  match NewHandle_err setup with
  | Some e => hc_fail "failed to create netlink handle: " e
  | None =>
  match LinkSubscribe_err setup with
  | Some e => hc_fail "failed to subscribe to link updates: " e
  | None =>
  match NewWatcher_err setup with
  | Some e => hc_fail "failed to create fsnotify watcher: " e
  | None =>
  match watcher_Add_err setup with
  | Some e => hc_fail "failed to add socket directory to watcher: " e
  | None =>
  match Stat_err setup with
  | Some e => hc_fail "failed to stat the device-plugin socket: " e
  | None =>
      match link with
      | LinkOtherError e => hc_fail "could not check the bridge: " e
      | LinkNotFoundError _ =>
          let run := healthCheck_loop dpi evs in
          {| hc_published :=
               {| dh_DevId := ""; dh_Health := Unhealthy |} :: hc_published run;
             hc_result := hc_result run |}
      | LinkFound operState =>
          let run := healthCheck_loop dpi evs in
          {| hc_published := publish_operState operState :: hc_published run;
             hc_result := hc_result run |}
      end
  end end end end end.

(** The operational states the health loop observes for its bridge, oldest
    first, [None] where the link is absent: the state found by name at the
    start, then the state of every update for the bridge that the loop
    receives before it returns. *)
Definition hc_returns (dpi : BridgeDevicePlugin) (ev : hcSelect) : bool :=
  match ev with
  | HcStop => true
  | HcFsEvent name op =>
      bool_decide (name = socketPath dpi) &&
      (Z.land op fsnotify_Remove =? fsnotify_Remove)
  | _ => false
  end.

Fixpoint received (dpi : BridgeDevicePlugin) (evs : list hcSelect)
  : list hcSelect :=
  match evs with
  | [] => []
  | ev :: rest => if hc_returns dpi ev then [] else ev :: received dpi rest
  end.

Definition observed_updates (dpi : BridgeDevicePlugin) (evs : list hcSelect)
  : list (option OperState) :=
  omap (λ ev, match ev with
              | HcLinkUpdate name operState =>
                  if decide (name = deviceName dpi)
                  then Some (Some operState) else None
              | _ => None
              end) (received dpi evs).

Definition observed (dpi : BridgeDevicePlugin) (link : linkByName)
  (evs : list hcSelect) : list (option OperState) :=
  match link with
  | LinkFound operState => Some operState :: observed_updates dpi evs
  | LinkNotFoundError _ => None :: observed_updates dpi evs
  | LinkOtherError _ => []
  end.

Definition setup_ok (setup : hcSetup) : Prop :=
  NewHandle_err setup = None ∧ LinkSubscribe_err setup = None ∧
  NewWatcher_err setup = None ∧ watcher_Add_err setup = None ∧
  Stat_err setup = None.

(** ** Notions used in the statements *)

(** The retry index is an index of the schedule. *)
Definition in_schedule (bo : list Duration) (r : Z) : Prop :=
  0 ≤ r ≤ len bo - 1.

(** A failed start followed by the full backoff wait. *)
Definition failing (it : iteration) : Prop :=
  is_Some (start_err it) ∧ selected it = TimerFired.

(** How the second of grace ends: with the deregistration when
    [deregistered] is closed already or is closed in time. *)
Definition grace_end (env : stopEnv) (dpi : BridgeDevicePlugin) : graceEnd :=
  match deregistered dpi with
  | ClosedChan => Deregistered
  | OpenChan => if deregisters_in_grace env then Deregistered else GraceElapsed
  | NilChan => GraceElapsed
  end.

(** A plugin as [Start] leaves it when it defers [stopDevicePlugin]: the
    channels made, the server created, the plugin initialized. *)
Definition started_plugin (d : string) (n : Z) : BridgeDevicePlugin :=
  setInitialized
    (set_server
       (set_deregistered (set_done (NewBridgeDevicePlugin d n) OpenChan)
          OpenChan)
       Serving)
    true.

Definition empty_response (r : ContainerAllocateResponse) : Prop :=
  Devices r = [] ∧ Envs r = ∅ ∧ Mounts r = [] ∧ Annotations r = ∅.

(** One response per container request (the specification's wording, for
    comparison with the handler). *)
Definition spec_one_response_per_request
    (dpi : BridgeDevicePlugin) (req : AllocateRequest) : Prop :=
  ∃ res, (Allocate dpi req).1 = Some res ∧
    length (ContainerResponses res) = length (ContainerRequests req).

Definition slot (d : string) (i : Z) : pluginapi_Device :=
  {| ID := d +:+ Itoa i; Health := Healthy |}.

(** The health published for an observation of the bridge. *)
Definition health_for (o : option OperState) : deviceHealth :=
  match o with
  | Some operState => publish_operState operState
  | None => {| dh_DevId := ""; dh_Health := Unhealthy |}
  end.

Definition is_slash (c : Ascii.ascii) : bool := Ascii.eqb c "/"%char.

(** The file name [SocketPath] appends for a device name. *)
Definition socket_file (d : string) : string :=
  "kubevirt-" +:+ d +:+ ".sock".

(** A plugin for the bridge [br0] with two slots, and a wrapper around it
    as [startDevice] builds it. *)
Definition br0 : BridgeDevicePlugin := NewBridgeDevicePlugin "br0" 2.

Definition wrapper_br0 : controlledDevice BridgeDevicePlugin :=
  {| devicePlugin := br0; started := false;
     stopChan := None; backoff := Some defaultBackoffTime |}.

Definition setup_without_errors : hcSetup :=
  {| NewHandle_err := None; LinkSubscribe_err := None;
     NewWatcher_err := None; watcher_Add_err := None; Stat_err := None |}.

(** ** Links and link updates ([netlink]) *)

(** The dynamic type of a [netlink.Link]: the type assertion to a
    [netlink.Bridge] succeeds on [BridgeLink] only. *)
Inductive linkType :=
| BridgeLink
| OtherLink (kind : string).

Record Link := {
  link_Name : string;
  link_Type : linkType;
  link_OperState : OperState
}.

(** [unix.RTM_NEWLINK] and [unix.RTM_DELLINK], the header types of a link
    update. *)
Definition RTM_NEWLINK : Z := 16.
Definition RTM_DELLINK : Z := 17.

Record LinkUpdate := {
  upd_Link : Link;
  upd_HeaderType : Z
}.

Definition is_Bridge (link : Link) : bool :=
  match link_Type link with
  | BridgeLink => true
  | OtherLink _ => false
  end.

(** [func GetBridgeDevicePlugins(maxDevices int) ([]Device, error)]; the
    answer of [netlink.LinkList] is given. *)
Definition GetBridgeDevicePlugins (LinkList : list Link + error)
  (maxDevices : Z) : option (list BridgeDevicePlugin) * option error :=
  match LinkList with
  | inr err => (None, Some err)
  | inl links =>
      (Some (foldl (λ ret link,
                      if is_Bridge link
                      then ret ++ [NewBridgeDevicePlugin (link_Name link)
                                     maxDevices]
                      else ret)
                   [] links),
       None)
  end.

(** *** [ScanForNewDevices] *)

(** The case a [select] of [ScanForNewDevices] takes. *)
Inductive scanSelect :=
| ScanUpdate (update : LinkUpdate)
| ScanStop.

Record scanRun := {
  scan_sent : list BridgeDevicePlugin;
  scan_closed_stop : bool;
  scan_closed_newPlugins : bool;
  scan_result : outcome unit
}.

(** The [for]/[select] loop: the plugins sent on [newPlugins], in order. *)
Fixpoint ScanForNewDevices_loop (maxDevices : Z) (evs : list scanSelect)
  : list BridgeDevicePlugin * outcome unit :=
  match evs with
  | [] => ([], Running)
  | ScanUpdate update :: rest =>
      let link := upd_Link update in
      let '(sent, r) := ScanForNewDevices_loop maxDevices rest in
      if is_Bridge link && (upd_HeaderType update =? RTM_NEWLINK)
      then (NewBridgeDevicePlugin (link_Name link) maxDevices :: sent, r)
      else (sent, r)
  | ScanStop :: _ => ([], Returned ())
  end.

(** [func (c *BridgeDeviceController) ScanForNewDevices(stop chan struct{})];
    [stop_closed] tells whether [stop] is closed already when
    [netlink.LinkSubscribe] fails.  The deferred [close(c.newPlugins)] runs
    on every return and on a panic. *)
Definition ScanForNewDevices (maxDevices : Z) (LinkSubscribe_err : option error)
  (stop_closed : bool) (evs : list scanSelect) : scanRun :=
  match LinkSubscribe_err with
  | Some _ =>
      if stop_closed then
        {| scan_sent := []; scan_closed_stop := false;
           scan_closed_newPlugins := true; scan_result := Panicked |}
      else
        {| scan_sent := []; scan_closed_stop := true;
           scan_closed_newPlugins := true; scan_result := Returned () |}
  | None =>
      let '(sent, r) := ScanForNewDevices_loop maxDevices evs in
      {| scan_sent := sent; scan_closed_stop := false;
         scan_closed_newPlugins :=
           match r with Running => false | _ => true end;
         scan_result := r |}
  end.

(** *** [Run] *)

(** The case a [select] of [Run] takes; a receive from [newPlugins] yields
    the nil [Device] once the channel is closed. *)
Inductive runSelect (D : Type) :=
| RunRecv (device : option D)
| RunStop.
Arguments RunRecv {D} device.
Arguments RunStop {D}.

Section Run.
Context {D : Type} `{Device D}.

(** The order in which ranging over [startedPlugins] visits its keys. *)
Definition rangeOrder : Type := gmap string (controlledDevice D) → list string.

Fixpoint Run_loop (stop_order : rangeOrder) (evs : list (runSelect D))
  (s : supervisor D) : outcome (option error) * supervisor D :=
  match evs with
  | [] => (Running, s)
  | RunRecv None :: _ => (Panicked, s)
  | RunRecv (Some device) :: rest =>
      match startNewPlugin device s with
      | Some s' => Run_loop stop_order rest s'
      | None => (Panicked, s)
      end
  | RunStop :: _ =>
      match stopAllPlugins (stop_order (startedPlugins s.1)) s with
      | Some s' => (Returned None, s')
      | None => (Panicked, s)
      end
  end.

(** [func (c *BridgeDeviceController) Run(stop chan struct{}) error];
    [ScanForNewDevices] runs beside it and is heard through [newPlugins]. *)
Definition Run (perm_order : list (string * D)) (stop_order : rangeOrder)
  (evs : list (runSelect D)) (s : supervisor D)
  : outcome (option error) * supervisor D :=
  match startPermanentPlugins perm_order s with
  | Some s' => Run_loop stop_order evs s'
  | None => (Panicked, s)
  end.

(** Channels are made in increasing order: what is closed or held by a
    loop has been made. *)
Definition world_wf (w : world D) : Prop :=
  (∀ ch, ch ∈ closed_chans w → (ch < next_chan w)%nat) ∧
  (∀ l, l ∈ goroutines w → (loop_stop l < next_chan w)%nat).
End Run.

Arguments rangeOrder D : clear implicits.

(** *** Dialling a socket: [gRPCConnect], [waitForGRPCServer] *)

(** [connectivity.State] *)
Inductive connState :=
| Idle
| Connecting
| Ready
| TransientFailure
| Shutdown.

(** One turn of the loop of [gRPCConnect]: the state [conn.GetState()]
    reports and whether [conn.WaitForStateChange] sees it change before
    the deadline. *)
Record connStep := {
  conn_state : connState;
  conn_changed : bool
}.

Inductive connEvent :=
| ConnConnect
| ConnClose.

Record connRun := {
  conn_events : list connEvent;
  conn_result : outcome (option error)
}.

Fixpoint gRPCConnect_loop (socketPath' : string) (steps : list connStep)
  : connRun :=
  match steps with
  | [] => {| conn_events := []; conn_result := Running |}
  | step :: rest =>
      let connect :=
        match conn_state step with
        | Idle => [ConnConnect]
        | _ => []
        end in
      match conn_state step with
      | Ready => {| conn_events := connect; conn_result := Returned None |}
      | _ =>
          if conn_changed step then
            let run := gRPCConnect_loop socketPath' rest in
            {| conn_events := connect ++ conn_events run;
               conn_result := conn_result run |}
          else
            {| conn_events := connect ++ [ConnClose];
               conn_result :=
                 Returned (Some ("Failed dial context at " +:+ socketPath'
                                 +:+ ": context deadline exceeded")) |}
      end
  end.

(** [func gRPCConnect(socketPath string, timeout time.Duration)]: the
    result is the error, nil when the connection is returned. *)
Definition gRPCConnect (socketPath' : string) (NewClient_err : option error)
  (steps : list connStep) : connRun :=
  match NewClient_err with
  | Some e => {| conn_events := []; conn_result := Returned (Some e) |}
  | None => gRPCConnect_loop socketPath' steps
  end.

(** [func waitForGRPCServer(socketPath string, timeout time.Duration) error] *)
Definition waitForGRPCServer (socketPath' : string)
  (NewClient_err : option error) (steps : list connStep) : connRun :=
  let run := gRPCConnect socketPath' NewClient_err steps in
  match conn_result run with
  | Returned None =>
      {| conn_events := conn_events run ++ [ConnClose];
         conn_result := Returned None |}
  | _ => run
  end.

(** *** [register] *)

(** [path.Base]: the last element of the path, trailing slashes dropped;
    [.] for the empty path and [/] for a path of slashes. *)
Fixpoint drop_trailing_empty (elems : list string) : list string :=
  match elems with
  | [] => []
  | e :: rest =>
      match drop_trailing_empty rest with
      | [] => if decide (e = "") then [] else [e]
      | rest' => e :: rest'
      end
  end.

Definition path_Base (path : string) : string :=
  if decide (path = "") then "."
  else match last (drop_trailing_empty (path_elements path)) with
       | Some e => e
       | None => "/"
       end.

(** [pluginapi.KubeletSocket] and [pluginapi.Version]. *)
Definition KubeletSocket : string := DevicePluginPath +:+ "kubelet.sock".
Definition Version : string := "v1beta1".

Record RegisterRequest := {
  reg_Version : string;
  reg_Endpoint : string;
  reg_ResourceName : string
}.

Record registerRun := {
  register_request : option RegisterRequest;
  register_events : list connEvent;
  register_result : outcome (option error)
}.

(** [func (dpi *BridgeDevicePlugin) register() error]; [Register_err] is
    the kubelet's answer to the request.  The connection is closed by the
    deferred [conn.Close()]. *)
Definition register (dpi : BridgeDevicePlugin) (NewClient_err : option error)
  (steps : list connStep) (Register_err : option error) : registerRun :=
  let run := gRPCConnect KubeletSocket NewClient_err steps in
  match conn_result run with
  | Returned None =>
      let reqt := {| reg_Version := Version;
                     reg_Endpoint := path_Base (socketPath dpi);
                     reg_ResourceName := resourceName dpi |} in
      {| register_request := Some reqt;
         register_events := conn_events run ++ [ConnClose];
         register_result := Returned Register_err |}
  | r =>
      {| register_request := None;
         register_events := conn_events run;
         register_result := r |}
  end.

(** *** [Start] of the plugin *)

Definition set_stop (dpi : BridgeDevicePlugin) (c : chanState)
  : BridgeDevicePlugin :=
  {| devs := devs dpi; server := server dpi; socketPath := socketPath dpi;
     stop := c; deviceName := deviceName dpi;
     resourceName := resourceName dpi; done := done dpi;
     initialized := initialized dpi; deregistered := deregistered dpi |}.

(** What the environment answers during [Start]: the state of the caller's
    stop channel, the removal of a stale socket, [net.Listen],
    [waitForGRPCServer], [register], the first value to arrive on
    [errChan] (from [server.Serve] or from [healthCheck]), and the answers
    to the deferred [stopDevicePlugin]. *)
Record startEnv := {
  start_stop : chanState;
  start_cleanup : removeResult;
  Listen_err : option error;
  waitForGRPCServer_err : option error;
  register_err : option error;
  errChan_first : option error;
  start_stopEnv : stopEnv
}.

Inductive startEvent :=
| EvCleanup (path : string)
| EvListen (path : string)
| EvNewServer
| EvServe
| EvWaitForGRPCServer
| EvRegister
| EvHealthCheck
| EvSetInitialized (b : bool)
| EvAwaitErrChan
| EvStopDevicePlugin (effects : list stopEffect).

Record startRun := {
  start_result : result (option error);
  start_plugin : BridgeDevicePlugin;
  start_events : list startEvent
}.

(** The statements of [Start] after [defer dpi.stopDevicePlugin()], up to
    its return: the error returned, the plugin and the events. *)
Definition Start_serving (env : startEnv) (dpi : BridgeDevicePlugin)
  : option error * BridgeDevicePlugin * list startEvent :=
  match waitForGRPCServer_err env with
  | Some e =>
      (Some ("error starting the GRPC server: " +:+ e), dpi,
       [EvServe; EvWaitForGRPCServer])
  | None =>
      match register_err env with
      | Some e =>
          (Some ("error registering with device plugin manager: " +:+ e),
           dpi, [EvServe; EvWaitForGRPCServer; EvRegister])
      | None =>
          (errChan_first env, setInitialized dpi true,
           [EvServe; EvWaitForGRPCServer; EvRegister; EvHealthCheck;
            EvSetInitialized true; EvAwaitErrChan])
      end
  end.

(** [func (dpi *BridgeDevicePlugin) Start(stop <-chan struct{}) (err error)].
    The value the deferred [stopDevicePlugin] returns is dropped; a panic
    in it is the panic of [Start]. *)
Definition BridgeDevicePlugin_Start (env : startEnv) (dpi : BridgeDevicePlugin)
  : startRun :=
  let dpi := set_deregistered
               (set_done (set_stop dpi (start_stop env)) OpenChan) OpenChan in
  match start_cleanup env with
  | RemoveFailed e =>
      {| start_result := Ret (Some e); start_plugin := dpi;
         start_events := [EvCleanup (socketPath dpi)] |}
  | Removed | RemoveNotExist =>
      match Listen_err env with
      | Some e =>
          {| start_result :=
               Ret (Some ("error creating GRPC server socket: " +:+ e));
             start_plugin := dpi;
             start_events :=
               [EvCleanup (socketPath dpi); EvListen (socketPath dpi)] |}
      | None =>
          let dpi := set_server dpi Serving in
          let '(err, dpi, evs) := Start_serving env dpi in
          let stopped := stopDevicePlugin (start_stopEnv env) dpi in
          {| start_result :=
               match stop_result stopped with
               | Panic => Panic
               | Ret _ => Ret err
               end;
             start_plugin := stop_plugin stopped;
             start_events :=
               [EvCleanup (socketPath dpi); EvListen (socketPath dpi);
                EvNewServer] ++ evs ++
               [EvStopDevicePlugin (stop_effects stopped)] |}
      end
  end.

(** The restart loop around the plugin: the iteration whose [dev.Start]
    is [Start] under [env]. *)
Definition plugin_iteration (env : startEnv) (dpi : BridgeDevicePlugin)
  (sel : selectCase) : iteration :=
  {| start_err :=
       match start_result (BridgeDevicePlugin_Start env dpi) with
       | Ret err => err
       | Panic => Some "panic"
       end;
     selected := sel |}.

(** ** Notions used in the further statements *)

#[export] Instance loopEvent_eq_dec : EqDecision loopEvent.
Proof. solve_decision. Defined.

(** How often the trace of a restart loop invokes [dev.Start]. *)
Definition starts_in (tr : list loopEvent) : nat :=
  length (filter (λ ev, ev = CallStart) tr).

(** A second bridge, and the supervisor of a node with [br0] after its
    permanent plugin has been started. *)
Definition br1 : BridgeDevicePlugin := NewBridgeDevicePlugin "br1" 2.

Definition supervisor_new : supervisor BridgeDevicePlugin :=
  (NewBridgeDeviceController [br0] 2, new_world).

Definition supervisor_br0 : supervisor BridgeDevicePlugin :=
  default supervisor_new (startNewPlugin br0 supervisor_new).

Definition supervisor_br0_br1 : supervisor BridgeDevicePlugin :=
  default supervisor_br0 (startNewPlugin br1 supervisor_br0).

(** Every schedule around the supervisor is the default one. *)
Definition default_schedules {D : Type} (s : supervisor D) : Prop :=
  ctl_backoff s.1 = Some defaultBackoffTime ∧
  ∀ l, l ∈ goroutines s.2 → loop_backoff l = defaultBackoffTime.

(** The updates that announce a bridge: [RTM_NEWLINK] for a link that is a
    bridge. *)
Definition announces_bridge (update : LinkUpdate) : Prop :=
  is_Bridge (upd_Link update) = true ∧ upd_HeaderType update = RTM_NEWLINK.

#[export] Instance announces_bridge_dec (update : LinkUpdate) :
  Decision (announces_bridge update).
Proof. unfold announces_bridge. apply _. Defined.

(** The order of ranging that follows the list of entries of the map. *)
Definition listed_order {D : Type} : rangeOrder D :=
  λ m, (map_to_list m).*1.

(** The update that announces the bridge [br1]. *)
Definition update_br1 : LinkUpdate :=
  {| upd_Link := {| link_Name := "br1"; link_Type := BridgeLink;
                    link_OperState := OperUp |};
     upd_HeaderType := RTM_NEWLINK |}.

(** [Start] gets as far as creating the server: the stale socket is out of
    the way and the listener is bound. *)
Definition reaches_server (env : startEnv) : Prop :=
  (∀ e, start_cleanup env ≠ RemoveFailed e) ∧ Listen_err env = None.

(** [Start] gets as far as the registration with the kubelet, and the
    kubelet accepts it. *)
Definition registers (env : startEnv) : Prop :=
  reaches_server env ∧ waitForGRPCServer_err env = None ∧
  register_err env = None.

(** The error [cleanup] makes of the answer to the removal. *)
Definition cleanup_error (answer : removeResult) : option error :=
  match answer with
  | RemoveFailed e => Some e
  | Removed | RemoveNotExist => None
  end.

(** The events on which the health loop returns: the stop signal, and a
    file-system event on the plugin's socket whose operation has the
    [Remove] bit (bit 2) set. *)
Definition ends_health_loop (dpi : BridgeDevicePlugin) (ev : hcSelect) : Prop :=
  ev = HcStop ∨
  ∃ op, ev = HcFsEvent (socketPath dpi) op ∧ Z.testbit op 2 = true.

(** An environment in which every step of [Start] succeeds. *)
Definition start_all_ok : startEnv :=
  {| start_stop := OpenChan; start_cleanup := RemoveNotExist;
     Listen_err := None; waitForGRPCServer_err := None;
     register_err := None; errChan_first := None;
     start_stopEnv :=
       {| deregisters_in_grace := false; remove_answer := Removed |} |}.

(** The cases of the [select] of [ListAndWatch] that end the stream. *)
Definition is_shutdown (ev : lawSelect) : Prop :=
  ev = RecvStop ∨ ev = RecvDone.

(* ===================================================================== *)
(** * Properties *)
(* ===================================================================== *)

(** ** Supervised-start wrapper: the restart loop *)

Section RestartLoop.
Variable bo : list Duration.
Hypothesis bo_nonempty : bo ≠ [].

Lemma len_pos : 1 ≤ len bo.
Proof using bo_nonempty.
  unfold len. destruct bo; [done | simpl; lia].
Qed.

Lemma next_retries_in_schedule r err :
  in_schedule bo r → in_schedule bo (next_retries bo r err).
Proof using bo_nonempty.
  pose proof len_pos. unfold in_schedule, next_retries.
  destruct err; lia.
Qed.

Lemma retries_after_in_schedule errs r :
  in_schedule bo r → in_schedule bo (retries_after bo r errs).
Proof using bo_nonempty.
  revert r. induction errs as [|err errs IH]; intros r Hr; [done|].
  apply IH, next_retries_in_schedule, Hr.
Qed.

Lemma go_index_in_schedule r :
  in_schedule bo r → is_Some (go_index bo r).
Proof.
  unfold in_schedule, go_index, len. intros Hr.
  destruct (Z.ltb_spec r 0); [lia|].
  apply lookup_lt_is_Some. lia.
Qed.

(** While timers fire, the loop carries on from the retry index the
    prefix leaves behind. *)
Lemma restart_loop_app pre rest r :
  in_schedule bo r →
  Forall (λ it, selected it = TimerFired) pre →
  restart_loop bo r (pre ++ rest) =
    restart_loop bo r pre ++
    restart_loop bo (retries_after bo r (start_err <$> pre)) rest.
Proof using bo_nonempty.
  revert r. induction pre as [|it pre IH]; intros r Hr Hpre; [done|].
  inversion Hpre as [|? ? Hit Hpre']; subst. simpl.
  pose proof (next_retries_in_schedule r (start_err it) Hr) as Hr'.
  destruct (go_index_in_schedule _ Hr') as [d ->].
  rewrite Hit. simpl. do 2 f_equal. by apply IH.
Qed.

(** A run of failed starts climbs the schedule one step per failure and
    stays on its last entry. *)
Lemma retries_after_failures errs r :
  in_schedule bo r →
  Forall is_Some errs →
  retries_after bo r errs = Z.min (r + len errs) (len bo - 1).
Proof using bo_nonempty.
  revert r. induction errs as [|err errs IH]; intros r Hr Herrs.
  - unfold in_schedule, len in *. simpl. lia.
  - inversion Herrs as [|? ? [e ->] Herrs']; subst.
    change (retries_after bo r (Some e :: errs))
      with (retries_after bo (next_retries bo r (Some e)) errs).
    rewrite IH; [|by apply (next_retries_in_schedule r (Some e))|done].
    unfold in_schedule, next_retries, len in *. simpl length. lia.
Qed.
End RestartLoop.

(** C1 (as amended).  With a non-empty schedule, the k-th consecutive failed
    start (k >= 1, counted from the start of the loop or from the last clean
    start) is followed by a wait of [backoff[min(k, len(backoff)-1)]]:
    the first failure already waits the second entry, and the first entry
    is the wait after a start that returned nil.  A start that returns nil
    resets the retry index to 0. *)
Theorem restart_loop_wait_after_failures
    (bo : list Duration) (pre fails : list iteration) :
  bo ≠ [] →
  fails ≠ [] →
  Forall failing fails →
  Forall (λ it, selected it = TimerFired) pre →
  (pre = [] ∨ ∃ pre', pre = pre' ++ [clean_start]) →
  (∃ d, go_index bo (Z.min (len fails) (len bo - 1)) = Some d ∧
        last (restart_loop bo 0 (pre ++ fails)) = Some (WaitFor d)) ∧
  (∀ r, next_retries bo r None = 0).
Proof.
  intros Hbo Hne Hfails Hpre Hstart. split; [|done].
  assert (in_schedule bo 0) as H0.
  { pose proof (len_pos bo Hbo). unfold in_schedule. lia. }
  assert (retries_after bo 0 (start_err <$> pre) = 0) as Hreset.
  { destruct Hstart as [-> | [pre' ->]]; [done|].
    rewrite fmap_app. unfold retries_after. by rewrite foldl_app. }
  destruct (exists_last Hne) as (fs & f & ->).
  apply Forall_app in Hfails as [Hfs Hf].
  inversion Hf as [|? ? [[e He] Hsel] _]; subst.
  set (r := retries_after bo 0 (start_err <$> fs)).
  assert (in_schedule bo r) as Hr by by apply retries_after_in_schedule.
  pose proof (next_retries_in_schedule bo Hbo r (Some e) Hr) as Hr'.
  destruct (go_index_in_schedule bo _ Hr') as [d Hd].
  assert (next_retries bo r (Some e) = Z.min (len (fs ++ [f])) (len bo - 1))
    as Hidx.
  { unfold r. rewrite retries_after_failures; [|done..|].
    - unfold next_retries, len. rewrite length_app, length_fmap. simpl. lia.
    - apply Forall_fmap. eapply Forall_impl; [exact Hfs|]. by intros ? [? _]. }
  exists d. split; [by rewrite <- Hidx|].
  rewrite app_assoc, restart_loop_app; [|done..|].
  - rewrite fmap_app. unfold retries_after at 1. rewrite foldl_app.
    fold (retries_after bo 0 (start_err <$> pre)). rewrite Hreset.
    fold (retries_after bo 0 (start_err <$> fs)). fold r.
    simpl. rewrite He, Hd, Hsel. rewrite last_app. done.
  - apply Forall_app. split; [done|].
    eapply Forall_impl; [exact Hfs|]. by intros ? [_ ?].
Qed.

Lemma restart_loop_wait_after_failures_witness :
  ∃ d, go_index defaultBackoffTime
         (Z.min (len [failed_start "bind"; failed_start "bind"])
                (len defaultBackoffTime - 1)) = Some d ∧
       last (restart_loop defaultBackoffTime 0
               ([clean_start] ++ [failed_start "bind"; failed_start "bind"]))
         = Some (WaitFor d).
Proof.
  refine (proj1 (restart_loop_wait_after_failures defaultBackoffTime
                   [clean_start] [failed_start "bind"; failed_start "bind"]
                   _ _ _ _ _)).
  - done.
  - done.
  - repeat constructor; by eexists.
  - by repeat constructor.
  - right. by exists [].
Defined.

(** With an empty (non-nil) schedule the first index is out of range. *)
Example restart_loop_empty_schedule_panics :
  restart_loop [] 0 [clean_start] = [CallStart; LoopPanic].
Proof. reflexivity. Qed.

(** C1 (as stated) fails on the default schedule: the first failed start is
    followed by a wait of 2s, where the claim names [backoff[0]] = 1s. *)
Lemma restart_loop_first_failure_not_first_entry :
  last (restart_loop defaultBackoffTime 0 [failed_start "bind"]) =
    Some (WaitFor (2 * Second)) ∧
  spec_backoff_wait defaultBackoffTime 1 = Some (1 * Second) ∧
  last (restart_loop defaultBackoffTime 0 [failed_start "bind"]) ≠
    WaitFor <$> spec_backoff_wait defaultBackoffTime 1.
Proof. repeat split; [reflexivity..|discriminate]. Qed.

(** ** Bridge plugin: the stop procedure *)

(** C2 (as amended).  On a plugin whose server has been created,
    [stopDevicePlugin] performs its steps in this order: it waits at most one
    second for [deregistered] to close, stops the gRPC server, sets
    [initialized] to false, removes the socket file, and only then, as its
    deferred call runs, closes [done] if it is still open. *)
Theorem stopDevicePlugin_order (env : stopEnv) (dpi : BridgeDevicePlugin) :
  server dpi ≠ NoServer →
  stop_effects (stopDevicePlugin env dpi) =
    [NewTicker (1 * Second); AwaitDeregistered (grace_end env dpi);
     ServerStop; SetInitialized false; RemoveSocket (socketPath dpi);
     TickerStop] ++
    (if IsChanClosed (done dpi) then []
     else match done dpi with OpenChan => [CloseDone] | _ => [] end) ∧
  initialized (stop_plugin (stopDevicePlugin env dpi)) = false ∧
  server (stop_plugin (stopDevicePlugin env dpi)) = ServerStopped.
Proof.
  intros Hserver. unfold grace_end.
  destruct dpi as [ds srv sp st dn rn dne ini dereg]; simpl in *.
  destruct env as [grace answer].
  destruct srv; [done| |];
    destruct dereg, grace, dne, answer; by vm_compute.
Qed.

Lemma stopDevicePlugin_order_witness :
  stop_effects
    (stopDevicePlugin {| deregisters_in_grace := true; remove_answer := Removed |}
       (started_plugin "br0" 2)) =
  [NewTicker (1 * Second); AwaitDeregistered Deregistered; ServerStop;
   SetInitialized false;
   RemoveSocket "/var/lib/kubelet/device-plugins/kubevirt-br0.sock";
   TickerStop; CloseDone].
Proof.
  refine (proj1 (stopDevicePlugin_order
                   {| deregisters_in_grace := true; remove_answer := Removed |}
                   (started_plugin "br0" 2) _)).
  vm_compute. discriminate.
Defined.

(** C2 (as stated) fails: on a started plugin with [done] open, closing
    [done] is the last step, after the removal of the socket file, not the
    first. *)
Lemma stopDevicePlugin_closes_done_last :
  let run :=
    stopDevicePlugin {| deregisters_in_grace := false; remove_answer := Removed |}
      (started_plugin "br0" 2) in
  listed_steps (stop_effects run) ≠
    spec_stop_order GraceElapsed (socketPath (started_plugin "br0" 2)) ∧
  head (listed_steps (stop_effects run)) = Some (AwaitDeregistered GraceElapsed) ∧
  last (listed_steps (stop_effects run)) = Some CloseDone.
Proof. vm_compute. repeat split; discriminate. Qed.

(** ** Bridge plugin: the handlers without state *)

(** C3 (as amended).  For every request, [Allocate] returns a response whose
    [ContainerResponses] is a list of exactly one empty
    [ContainerAllocateResponse], whatever the number of container requests:
    the list has one response per container request only when the request
    has exactly one.  No device nodes, environment variables or mounts are
    returned. *)
Theorem Allocate_one_empty_response
    (dpi : BridgeDevicePlugin) (req : AllocateRequest) :
  ∃ res, Allocate dpi req = (Some res, None) ∧
    length (ContainerResponses res) = 1%nat ∧
    Forall empty_response (ContainerResponses res) ∧
    (length (ContainerResponses res) = length (ContainerRequests req) ↔
     length (ContainerRequests req) = 1%nat).
Proof.
  eexists. split; [reflexivity|]. simpl. split; [done|]. split.
  - by repeat constructor.
  - split; intros; congruence.
Qed.

Lemma Allocate_one_empty_response_witness :
  ∃ res, Allocate br0 {| ContainerRequests := [{| DevicesIDs := ["br00"] |}] |}
           = (Some res, None) ∧
         length (ContainerResponses res) = 1%nat.
Proof.
  destruct (Allocate_one_empty_response br0
              {| ContainerRequests := [{| DevicesIDs := ["br00"] |}] |})
    as (res & Hres & Hlen & _).
  exists res. split; [exact Hres | exact Hlen].
Defined.

(** C3 (as stated) fails on a request for two containers, which is
    answered with one response. *)
Lemma Allocate_two_containers_one_response :
  ¬ spec_one_response_per_request (NewBridgeDevicePlugin "br0" 2)
      {| ContainerRequests :=
           [{| DevicesIDs := ["br00"] |}; {| DevicesIDs := ["br01"] |}] |}.
Proof. intros (res & Hres & Hlen). simpl in Hres. by simplify_eq. Qed.


(** ** Bridge plugin: the slots and the list-and-watch stream *)

Lemma slot_loop_devs (dpi : BridgeDevicePlugin) (ixs : list Z) :
  let dpi' :=
    foldl (λ dpi i,
             let deviceId := deviceName dpi +:+ Itoa i in
             set_devs dpi
               (devs dpi ++ [{| ID := deviceId; Health := Healthy |}]))
          dpi ixs in
  deviceName dpi' = deviceName dpi ∧
  devs dpi' = devs dpi ++ (slot (deviceName dpi) <$> ixs).
Proof.
  revert dpi. induction ixs as [|i ixs IH]; intros dpi; simpl.
  - by rewrite app_nil_r.
  - destruct (IH (set_devs dpi (devs dpi ++ [slot (deviceName dpi) i])))
      as [Hname Hdevs].
    unfold slot in *. simpl in *. rewrite Hname, Hdevs.
    by rewrite <- app_assoc.
Qed.

Lemma NewBridgeDevicePlugin_devs (d : string) (n : Z) :
  devs (NewBridgeDevicePlugin d n) = slot d <$> seqZ 0 n.
Proof.
  unfold NewBridgeDevicePlugin.
  match goal with
  | |- devs (foldl _ ?dpi0 _) = _ =>
      destruct (slot_loop_devs dpi0 (seqZ 0 n)) as [_ Hdevs]
  end.
  exact Hdevs.
Qed.

(** C4.  For every device name [d] and every non-negative [n], the plugin
    built by [NewBridgeDevicePlugin d n] has exactly [n] slots, the i-th
    with ID [d] followed by the decimal rendering of [i] and health
    [Healthy], and the first message [ListAndWatch] sends on it is this
    list. *)
Theorem NewBridgeDevicePlugin_slots (d : string) (n : Z) :
  0 ≤ n →
  len (devs (NewBridgeDevicePlugin d n)) = n ∧
  (∀ i, 0 ≤ i < n →
     devs (NewBridgeDevicePlugin d n) !! Z.to_nat i =
       Some {| ID := d +:+ Itoa i; Health := Healthy |}) ∧
  (∀ evs,
     head (law_sent (ListAndWatch (NewBridgeDevicePlugin d n) evs)) =
       Some (devs (NewBridgeDevicePlugin d n))).
Proof.
  intros Hn. split; [|split].
  - rewrite NewBridgeDevicePlugin_devs.
    unfold len. rewrite length_fmap, length_seqZ. lia.
  - intros i Hi. rewrite NewBridgeDevicePlugin_devs.
    rewrite list_lookup_fmap, lookup_seqZ_lt by lia.
    simpl. unfold slot. by rewrite Z.add_0_l, Z2Nat.id by lia.
  - done.
Qed.

Lemma NewBridgeDevicePlugin_slots_witness :
  len (devs (NewBridgeDevicePlugin "br0" 1024)) = 1024 ∧
  devs (NewBridgeDevicePlugin "br0" 1024) !! Z.to_nat 1023 =
    Some {| ID := "br01023"; Health := "Healthy" |}.
Proof.
  destruct (NewBridgeDevicePlugin_slots "br0" 1024 ltac:(lia))
    as (Hlen & Hslot & _).
  split; [exact Hlen|]. exact (Hslot 1023 ltac:(lia)).
Defined.

(** ** Bridge plugin: health *)

Lemma health_for_Healthy (o : option OperState) :
  dh_Health (health_for o) = Healthy ↔ o = Some OperUp.
Proof.
  destruct o as [s|]; simpl; [|split; discriminate].
  unfold publish_operState. destruct (decide (s = OperUp)) as [->|Hs]; simpl.
  - done.
  - split; [discriminate | by intros [= ->]].
Qed.

Lemma health_for_Unhealthy (o : option OperState) :
  dh_Health (health_for o) = Unhealthy ↔ o ≠ Some OperUp.
Proof.
  destruct o as [s|]; simpl; [|done].
  unfold publish_operState. destruct (decide (s = OperUp)) as [->|Hs]; simpl.
  - split; [discriminate | done].
  - split; [by intros _ [= ->] | done].
Qed.

(** The loop publishes once for every update of its bridge it receives. *)
Lemma healthCheck_loop_published (dpi : BridgeDevicePlugin) evs :
  hc_published (healthCheck_loop dpi evs) =
    health_for <$> observed_updates dpi evs.
Proof.
  unfold observed_updates.
  induction evs as [|ev evs IH]; [done|].
  destruct ev as [|name s|name op|e]; simpl; try done.
  - destruct (decide (name = deviceName dpi)); simpl; by rewrite IH.
  - destruct (bool_decide (name = socketPath dpi) &&
              (Z.land op fsnotify_Remove =? fsnotify_Remove)); simpl; done.
Qed.

Lemma healthCheck_published dpi setup link evs :
  setup_ok setup →
  hc_published (healthCheck dpi setup link evs) =
    health_for <$> observed dpi link evs.
Proof.
  intros (H1 & H2 & H3 & H4 & H5). unfold healthCheck, observed.
  rewrite H1, H2, H3, H4, H5.
  destruct link; simpl; by rewrite ?healthCheck_loop_published.
Qed.

Lemma set_Health_set_Health h1 h2 (ds : list pluginapi_Device) :
  set_Health h2 <$> (set_Health h1 <$> ds) = set_Health h2 <$> ds.
Proof. rewrite <- list_fmap_compose. by apply list_fmap_ext. Qed.

(** Every health received is written into every slot and sent. *)
Lemma ListAndWatch_loop_sent (dpi : BridgeDevicePlugin) pubs :
  law_sent (ListAndWatch_loop dpi (RecvHealth <$> pubs)) =
    (λ h, set_Health (dh_Health h) <$> devs dpi) <$> pubs.
Proof.
  revert dpi. induction pubs as [|h pubs IH]; intros dpi; [done|].
  simpl. f_equal. rewrite IH. simpl.
  apply list_fmap_ext. intros _ h' _. apply set_Health_set_Health.
Qed.

(** C5.  When the health loop is set up, it publishes once for each
    operational state it observes for its bridge (the state found at the
    start, the link being possibly absent, then each update received for
    the bridge); the value is [Healthy] if and only if the state observed
    is [OperUp], and [Unhealthy] otherwise, the absent link included; and
    the message [ListAndWatch] sends on receiving it carries that value in
    every slot. *)
Theorem health_reflects_operState
    (dpi : BridgeDevicePlugin) (setup : hcSetup) (link : linkByName)
    (evs : list hcSelect) :
  setup_ok setup →
  let pubs := hc_published (healthCheck dpi setup link evs) in
  let msgs := law_sent (ListAndWatch dpi (RecvHealth <$> pubs)) in
  length pubs = length (observed dpi link evs) ∧
  ∀ n o, observed dpi link evs !! n = Some o →
    ∃ h m, pubs !! n = Some h ∧ msgs !! S n = Some m ∧
      (dh_Health h = Healthy ↔ o = Some OperUp) ∧
      (dh_Health h = Unhealthy ↔ o ≠ Some OperUp) ∧
      length m = length (devs dpi) ∧
      Forall (λ dev, Health dev = dh_Health h) m.
Proof.
  intros Hsetup pubs msgs. subst pubs msgs.
  rewrite (healthCheck_published _ _ _ _ Hsetup).
  split; [by rewrite length_fmap|].
  intros n o Hn.
  exists (health_for o), (set_Health (dh_Health (health_for o)) <$> devs dpi).
  split; [by rewrite list_lookup_fmap, Hn|].
  split.
  { unfold ListAndWatch. simpl. rewrite ListAndWatch_loop_sent.
    by rewrite !list_lookup_fmap, Hn. }
  split; [apply health_for_Healthy|].
  split; [apply health_for_Unhealthy|].
  split; [by rewrite length_fmap|].
  apply Forall_fmap, Forall_true. done.
Qed.

(** ** Socket path resolver *)

Lemma string_length_app (a b : string) :
  String.length (a +:+ b) = (String.length a + String.length b)%nat.
Proof. induction a as [|c a IH]; simpl; [done | by rewrite IH]. Qed.

Lemma string_app_assoc (a b c : string) : (a +:+ b) +:+ c = a +:+ b +:+ c.
Proof.
  induction a as [|x a IH]; [done|].
  change (String x ((a +:+ b) +:+ c) = String x (a +:+ b +:+ c)).
  by rewrite IH.
Qed.

Lemma string_app_inv_tail (a b s : string) : a +:+ s = b +:+ s → a = b.
Proof.
  revert b. induction a as [|c a IH]; intros [|c' b] Heq; simpl in Heq.
  - done.
  - apply (f_equal String.length) in Heq.
    rewrite ?string_length_app in Heq. simpl in Heq.
    rewrite ?string_length_app in Heq. lia.
  - apply (f_equal String.length) in Heq.
    rewrite ?string_length_app in Heq. simpl in Heq.
    rewrite ?string_length_app in Heq. lia.
  - injection Heq as -> Heq. f_equal. by apply IH.
Qed.

Lemma has_char_app p (a b : string) :
  has_char p (a +:+ b) = has_char p a || has_char p b.
Proof.
  induction a as [|c a IH]; simpl; [done|]. by rewrite IH, orb_assoc.
Qed.

Lemma has_char_weaken (p q : Ascii.ascii → bool) (s : string) :
  (∀ c, p c = true → q c = true) →
  has_char q s = false → has_char p s = false.
Proof.
  intros Hpq. induction s as [|c s IH]; simpl; [done|].
  intros [Hq Hs]%orb_false_elim. rewrite (IH Hs), orb_false_r.
  destruct (p c) eqn:Hp; [|done]. by rewrite (Hpq c Hp) in Hq.
Qed.

Lemma path_elements_nonempty (path : string) : path_elements path ≠ [].
Proof.
  destruct path as [|c rest]; simpl; [done|].
  destruct (Ascii.eqb c "/"); [done|]. by destruct (path_elements rest).
Qed.

(** A name without a slash is a single path element. *)
Lemma path_elements_slash_free (s : string) :
  has_char is_slash s = false → path_elements s = [s].
Proof.
  induction s as [|c s IH]; simpl; [done|].
  unfold is_slash at 1. intros [Hc Hs]%orb_false_elim.
  by rewrite Hc, (IH Hs).
Qed.

Lemma path_elements_app (a b : string) :
  path_elements (a +:+ "/" +:+ b) = path_elements a ++ path_elements b.
Proof.
  induction a as [|c a IH]; simpl; [done|].
  rewrite IH. destruct (Ascii.eqb c "/"); [done|].
  pose proof (path_elements_nonempty a).
  by destruct (path_elements a).
Qed.

Lemma socket_file_head (d : string) :
  socket_file d = String "k" ("ubevirt-" +:+ d +:+ ".sock").
Proof. reflexivity. Qed.

Lemma socket_file_slash_free (d : string) :
  has_char is_slash d = false → has_char is_slash (socket_file d) = false.
Proof.
  intros Hd. unfold socket_file. by rewrite !has_char_app, Hd.
Qed.

(** On a device name without a slash, joining is plain concatenation with
    the plugin directory. *)
Lemma SocketPath_slash_free (d : string) :
  has_char is_slash d = false →
  SocketPath d = DevicePluginPath +:+ socket_file d.
Proof.
  intros Hd. unfold SocketPath. fold (socket_file d).
  pose proof (socket_file_slash_free d Hd) as Hfile.
  unfold filepath_Join, DevicePluginPath.
  rewrite decide_False by done.
  change (join_slash ["/var/lib/kubelet/device-plugins/"; socket_file d])
    with ("/var/lib/kubelet/device-plugins/" +:+ "/" +:+ socket_file d).
  unfold filepath_Clean.
  rewrite decide_False by done.
  rewrite path_elements_app, foldl_app.
  rewrite (path_elements_slash_free _ Hfile).
  change (is_rooted _) with true.
  let out := eval vm_compute in
      (foldl (clean_element true) []
         (path_elements "/var/lib/kubelet/device-plugins/")) in
  change (foldl (clean_element true) []
            (path_elements "/var/lib/kubelet/device-plugins/")) with out.
  unfold foldl, clean_element.
  destruct (decide (socket_file d = "" ∨ socket_file d = ".")) as [[Hf|Hf]|_];
    [rewrite socket_file_head in Hf; discriminate..|].
  destruct (decide (socket_file d = "..")) as [Hf|_];
    [rewrite socket_file_head in Hf; discriminate|].
  assert (clean_render true
            [socket_file d; "device-plugins"; "kubelet"; "lib"; "var"] =
          String "/" ("var/lib/kubelet/device-plugins/" +:+ socket_file d))
    as -> by reflexivity.
  by rewrite decide_False by discriminate.
Qed.

Lemma valid_device_name_slash_free (d : string) :
  valid_device_name d = true → has_char is_slash d = false.
Proof.
  unfold valid_device_name. intros Hvalid.
  apply andb_prop in Hvalid as [_ Hchars].
  apply negb_true_iff in Hchars.
  eapply has_char_weaken; [|exact Hchars].
  intros c Hc. unfold is_slash in Hc. simpl. by rewrite Hc.
Qed.

(** C9.  [SocketPath] is a function of the device name alone: the plugin
    directory joined with the fixed prefix, the device name and the [.sock]
    suffix; on valid device names the join is the concatenation, and
    [SocketPath] is injective. *)
Theorem SocketPath_injective (d1 d2 : string) :
  valid_device_name d1 = true →
  valid_device_name d2 = true →
  SocketPath d1 =
    filepath_Join [DevicePluginPath; "kubevirt-" +:+ d1 +:+ ".sock"] ∧
  SocketPath d1 = DevicePluginPath +:+ "kubevirt-" +:+ d1 +:+ ".sock" ∧
  (SocketPath d1 = SocketPath d2 → d1 = d2).
Proof.
  intros Hd1%valid_device_name_slash_free Hd2%valid_device_name_slash_free.
  split; [done|]. split; [by apply SocketPath_slash_free|].
  rewrite !SocketPath_slash_free by done. unfold socket_file.
  intros Heq%String.app_inj%String.app_inj. by apply string_app_inv_tail in Heq.
Qed.

Lemma SocketPath_injective_witness :
  SocketPath "br0" = "/var/lib/kubelet/device-plugins/kubevirt-br0.sock" ∧
  (SocketPath "br0" = SocketPath "br1" → "br0" = "br1").
Proof.
  destruct (SocketPath_injective "br0" "br1" eq_refl eq_refl)
    as (_ & Hpath & Hinj).
  split; [exact Hpath | exact Hinj].
Defined.

(** Outside the valid names the join cleans the path, and two names with
    a slash may share a socket. *)
Example SocketPath_not_injective_with_slash :
  SocketPath "a/../b" = SocketPath "x/../b".
Proof. reflexivity. Qed.

(** ** Supervised-start wrapper: idempotence *)

Section WrapperProps.
Context {D : Type}.
Implicit Types (c : controlledDevice D) (w : world D).

Lemma controlledDevice_Start_started c w :
  started (controlledDevice_Start c w).1 = true.
Proof.
  unfold controlledDevice_Start. by destruct (started c) eqn:Hs.
Qed.

Lemma controlledDevice_Stop_stopped c w c' w' :
  controlledDevice_Stop c w = Some (c', w') → started c' = false.
Proof.
  unfold controlledDevice_Stop. destruct (started c) eqn:Hs; simpl.
  - destruct (close_chan (stopChan c) w); simpl; [|done]. by intros [= <- <-].
  - by intros [= <- <-].
Qed.

(** C7.  [Start] on a started wrapper changes nothing, so a second [Start]
    changes nothing and spawns no second restart loop: two calls on a
    stopped wrapper spawn exactly one.  [Stop] on a stopped wrapper
    changes nothing, so a second [Stop] after a first is a no-op; after
    [Start] in a world where the channel it makes is fresh, [Stop] can be
    called twice without a panic. *)
Theorem controlledDevice_Start_Stop_idempotent c w :
  (started c = true → controlledDevice_Start c w = (c, w)) ∧
  (let '(c1, w1) := controlledDevice_Start c w in
   controlledDevice_Start c1 w1 = (c1, w1) ∧
   (started c = false →
    ∃ loop, goroutines w1 = goroutines w ++ [loop] ∧
            stopChan c1 = Some (loop_stop loop))) ∧
  (started c = false → controlledDevice_Stop c w = Some (c, w)) ∧
  (∀ c1 w1, controlledDevice_Stop c w = Some (c1, w1) →
     controlledDevice_Stop c1 w1 = Some (c1, w1)) ∧
  (let '(c1, w1) := controlledDevice_Start c w in
   started c = false → next_chan w ∉ closed_chans w →
   ∃ c2 w2, controlledDevice_Stop c1 w1 = Some (c2, w2) ∧
            controlledDevice_Stop c2 w2 = Some (c2, w2) ∧
            goroutines w2 = goroutines w1).
Proof.
  split; [|split; [|split; [|split]]].
  - intros Hs. unfold controlledDevice_Start. by rewrite Hs.
  - pose proof (controlledDevice_Start_started c w) as Hs1.
    destruct (controlledDevice_Start c w) as [c1 w1] eqn:Hstart.
    simpl in Hs1. split.
    + unfold controlledDevice_Start. by rewrite Hs1.
    + intros Hs. unfold controlledDevice_Start in Hstart.
      rewrite Hs in Hstart. injection Hstart as <- <-. by eexists.
  - intros Hs. unfold controlledDevice_Stop. by rewrite Hs.
  - intros c1 w1 Hstop.
    pose proof (controlledDevice_Stop_stopped _ _ _ _ Hstop) as Hs1.
    unfold controlledDevice_Stop. by rewrite Hs1.
  - destruct (controlledDevice_Start c w) as [c1 w1] eqn:Hstart.
    intros Hs Hfresh. unfold controlledDevice_Start in Hstart.
    rewrite Hs in Hstart. injection Hstart as <- <-.
    unfold controlledDevice_Stop at 1. simpl.
    rewrite decide_False by done. simpl. by do 2 eexists.
Qed.
End WrapperProps.

Lemma controlledDevice_Start_Stop_idempotent_witness :
  (let '(c1, w1) := controlledDevice_Start wrapper_br0 new_world in
   controlledDevice_Start c1 w1 = (c1, w1) ∧
   length (goroutines w1) = 1%nat) ∧
  (let '(c1, w1) := controlledDevice_Start wrapper_br0 new_world in
   ∃ c2 w2, controlledDevice_Stop c1 w1 = Some (c2, w2) ∧
            controlledDevice_Stop c2 w2 = Some (c2, w2)).
Proof.
  destruct (controlledDevice_Start_Stop_idempotent wrapper_br0 new_world)
    as (_ & Hstart & _ & _ & Hstop).
  destruct (controlledDevice_Start wrapper_br0 new_world) as [c1 w1] eqn:Heq.
  destruct Hstart as [Hidem Hloop]. split.
  - split; [exact Hidem|].
    destruct (Hloop eq_refl) as (loop & -> & _). reflexivity.
  - destruct (Hstop eq_refl) as (c2 & w2 & H1 & H2 & _).
    + vm_compute. set_solver.
    + by exists c2, w2.
Defined.

(** ** Device supervisor: readiness *)

Section InitializedProps.
Context {D : Type} `{Device D}.

Lemma Initialized_range_Forall (entries : list (string * controlledDevice D)) :
  Initialized_range entries = true ↔
  Forall (λ e, GetInitialized (devicePlugin e.2) = true) entries.
Proof.
  induction entries as [|[name dev] entries IH]; simpl.
  - split; [by constructor | done].
  - destruct (GetInitialized (devicePlugin dev)) eqn:Hdev; simpl.
    + rewrite IH. split; [by constructor | by inversion 1].
    + split; [done|]. intros Hall.
      inversion Hall as [|? ? Hhd]; simpl in Hhd; congruence.
Qed.

(** C8.  Whatever the order in which [startedPlugins] is ranged over,
    [Initialized] returns true if and only if every plugin in the map
    reports [GetInitialized() == true]; on the empty map it returns
    true. *)
Theorem Initialized_iff_all_initialized
    (c : BridgeDeviceController D)
    (order : list (string * controlledDevice D)) :
  order ≡ₚ map_to_list (startedPlugins c) →
  (Initialized_range order = true ↔
   ∀ name dev, startedPlugins c !! name = Some dev →
               GetInitialized (devicePlugin dev) = true) ∧
  Initialized_range order = Initialized c ∧
  (startedPlugins c = ∅ → Initialized c = true).
Proof.
  intros Horder.
  assert (∀ l, l ≡ₚ map_to_list (startedPlugins c) →
            (Initialized_range l = true ↔
             ∀ name dev, startedPlugins c !! name = Some dev →
                         GetInitialized (devicePlugin dev) = true))
    as Hiff.
  { intros l Hl. rewrite Initialized_range_Forall, Forall_forall. split.
    - intros Hall name dev Hlookup.
      apply (Hall (name, dev)). rewrite Hl.
      by apply elem_of_map_to_list.
    - intros Hall [name dev] Hin. rewrite Hl in Hin.
      apply elem_of_map_to_list in Hin. by apply (Hall name). }
  split; [by apply Hiff|]. split.
  - unfold Initialized. apply eq_true_iff_eq.
    rewrite (Hiff order Horder).
    by rewrite (Hiff (map_to_list (startedPlugins c)) (reflexivity _)).
  - intros Hempty. unfold Initialized. rewrite Hempty.
    by rewrite map_to_list_empty.
Qed.
End InitializedProps.

(** ** Device supervisor: one wrapper per device name *)

Lemma NoDup_fmap_elem_inj {A B} (f : A → B) (l : list A) (x y : A) :
  NoDup (f <$> l) → x ∈ l → y ∈ l → f x = f y → x = y.
Proof.
  intros Hnd [i Hi]%list_elem_of_lookup [j Hj]%list_elem_of_lookup Hf.
  assert (i = j) as ->; [|congruence].
  eapply NoDup_lookup; [exact Hnd| |]; rewrite list_lookup_fmap.
  - by rewrite Hi.
  - by rewrite Hj, Hf.
Qed.

Section SupervisorProps.
Context {D : Type} `{Device D}.
Implicit Types (c : BridgeDeviceController D) (w : world D).
Implicit Types (s : supervisor D) (cd : controlledDevice D).

Lemma permanentPluginsMap_names (plugins : list D) (m : gmap string D) :
  (∀ name d, m !! name = Some d → GetDeviceName d = name) →
  ∀ name d,
    foldl (λ m p, <[GetDeviceName p := p]> m) m plugins !! name = Some d →
    GetDeviceName d = name.
Proof.
  revert m. induction plugins as [|p plugins IH]; intros m Hm; [done|].
  simpl. apply IH. intros name d.
  destruct (decide (GetDeviceName p = name)) as [<-|Hne].
  - rewrite lookup_insert_eq. by intros [= <-].
  - rewrite lookup_insert_ne by done. apply Hm.
Qed.

Lemma NewBridgeDeviceController_inv (plugins : list D) (n : Z) :
  supervisor_inv (NewBridgeDeviceController plugins n, new_world).
Proof.
  split; simpl.
  - intros name cd. by rewrite lookup_empty.
  - intros l Hl. by apply elem_of_nil in Hl.
  - constructor.
  - apply permanentPluginsMap_names. intros name d.
    by rewrite lookup_empty.
  - intros ch Hch. by apply elem_of_empty in Hch.
Qed.

(** Two entries of the map never share a stop channel. *)
Lemma started_chans_distinct s name1 name2 cd1 cd2 ch :
  supervisor_inv s →
  startedPlugins s.1 !! name1 = Some cd1 →
  startedPlugins s.1 !! name2 = Some cd2 →
  stopChan cd1 = Some ch → stopChan cd2 = Some ch →
  name1 = name2.
Proof.
  intros Hinv H1 H2 Hch1 Hch2.
  destruct (inv_started s Hinv _ _ H1)
    as (_ & Hn1 & ch1 & l1 & Hc1 & _ & Hl1 & Hs1 & Hd1).
  destruct (inv_started s Hinv _ _ H2)
    as (_ & Hn2 & ch2 & l2 & Hc2 & _ & Hl2 & Hs2 & Hd2).
  assert (l1 = l2) as ->.
  { eapply NoDup_fmap_elem_inj; [exact (inv_chans s Hinv)|done..|].
    congruence. }
  congruence.
Qed.

(** [stopDevice] never panics under the invariant, keeps it, closes the
    stop channel of the wrapper it finds and leaves the name free. *)
Lemma stopDevice_inv (name : string) s :
  supervisor_inv s →
  ∃ s', stopDevice name s = Some s' ∧ supervisor_inv s' ∧
    startedPlugins s'.1 !! name = None ∧
    ctl_backoff s'.1 = ctl_backoff s.1 ∧
    (∀ cd ch, startedPlugins s.1 !! name = Some cd →
              stopChan cd = Some ch → ch ∈ closed_chans s'.2).
Proof.
  destruct s as [c w]. intros Hinv. unfold stopDevice.
  destruct (startedPlugins c !! name) as [cd|] eqn:Hcd; simpl.
  - destruct (inv_started _ Hinv _ _ Hcd)
      as (Hs & Hn & ch & l & Hch & Hopen & Hl & Hlch & Hldev).
    simpl in *. unfold controlledDevice_Stop, close_chan.
    rewrite Hs, Hch. simpl. rewrite decide_False by done. simpl.
    eexists. split; [done|]. split; [|split; [|split]]; simpl.
    + split; simpl.
      * intros name' cd' Hcd'.
        apply lookup_delete_Some in Hcd' as [Hne Hcd'].
        destruct (inv_started _ Hinv _ _ Hcd')
          as (Hs' & Hn' & ch' & l' & Hch' & Hopen' & Hl' & Hlch' & Hldev').
        split; [done|]. split; [done|].
        exists ch', l'. simpl in *. repeat split; try done.
        intros [Heq%elem_of_singleton|Hin]%elem_of_union; [|done].
        rewrite Heq in Hch'. apply Hne.
        exact (started_chans_distinct (c, w) name name' cd cd' ch
                 Hinv Hcd Hcd' Hch Hch').
      * intros l' Hl'.
        destruct (inv_loops _ Hinv _ Hl') as [Hlt Hlive]. simpl in *.
        split; [done|]. unfold live in *. simpl.
        intros Hopen'.
        destruct Hlive as (cd' & Hcd' & Hch'); [set_solver|].
        exists cd'. split; [|done].
        apply lookup_delete_Some. split; [|done].
        intros Heq. rewrite <- Heq, Hcd in Hcd'. simplify_eq.
        set_solver.
      * exact (inv_chans _ Hinv).
      * exact (inv_permanent _ Hinv).
      * intros ch' [Heq%elem_of_singleton|Hin]%elem_of_union.
        -- subst ch'. destruct (inv_loops _ Hinv _ Hl) as [Hlt _].
           simpl in Hlt. by rewrite Hlch in Hlt.
        -- by apply (inv_closed _ Hinv).
    + apply lookup_delete_eq.
    + done.
    + intros cd' ch' Heq Hch'. rewrite Hcd in Heq. injection Heq as <-.
      rewrite Hch in Hch'. injection Hch' as <-. set_solver.
  - eexists. split; [done|]. split; [done|]. split; [done|].
    split; [done|]. intros cd ch Hcd'. simpl in Hcd'. congruence.
Qed.

(** [startDevice] under the name of its device never panics under the
    invariant and keeps it; a wrapper filed under the name before is
    stopped (its channel closed) before the new one is recorded. *)
Lemma startDevice_inv (name : string) (dev : D) s :
  supervisor_inv s →
  GetDeviceName dev = name →
  ∃ s', startDevice name dev s = Some s' ∧ supervisor_inv s' ∧
    (∀ cd ch, startedPlugins s.1 !! name = Some cd →
              stopChan cd = Some ch → ch ∈ closed_chans s'.2) ∧
    (∃ cd', startedPlugins s'.1 !! name = Some cd' ∧
            devicePlugin cd' = dev ∧ started cd' = true).
Proof.
  intros Hinv Hname. unfold startDevice.
  destruct (stopDevice_inv name s Hinv)
    as ([c1 w1] & -> & Hinv1 & Hfree & _ & Hclosed).
  simpl in *. unfold controlledDevice_Start. simpl.
  eexists. split; [done|]. split; [|split]; simpl.
  - split; simpl.
    + intros name' cd' Hcd'.
      apply lookup_insert_Some in Hcd' as [[<- <-]|[Hne Hcd']].
      * split; [done|]. split; [done|]. simpl.
        eexists _, _. split; [done|]. split.
        { intros Hin%(inv_closed _ Hinv1). simpl in Hin. lia. }
        split; [apply elem_of_app; right; by apply list_elem_of_singleton|].
        done.
      * destruct (inv_started _ Hinv1 _ _ Hcd')
          as (Hs' & Hn' & ch' & l' & Hch' & Hopen' & Hl' & Hlch' & Hldev').
        split; [done|]. split; [done|].
        exists ch', l'. simpl in *. repeat split; try done.
        apply elem_of_app. by left.
    + intros l' [Hl'|Hl'%list_elem_of_singleton]%elem_of_app.
      * destruct (inv_loops _ Hinv1 _ Hl') as [Hlt Hlive]. simpl in *.
        split; simpl; [lia|]. unfold live in *. simpl. intros Hopen'.
        destruct (Hlive Hopen') as (cd' & Hcd' & Hch').
        exists cd'. split; [|done].
        rewrite lookup_insert_ne; [done|].
        intros Heq. rewrite <- Heq, Hfree in Hcd'. done.
      * subst l'. split; simpl; [lia|]. intros _.
        eexists. rewrite Hname, lookup_insert_eq. done.
    + rewrite fmap_app. simpl. apply NoDup_app. split; [|split].
      * exact (inv_chans _ Hinv1).
      * intros ch (l' & -> & Hl')%list_elem_of_fmap Hin.
        apply list_elem_of_singleton in Hin.
        destruct (inv_loops _ Hinv1 _ Hl') as [Hlt _]. simpl in Hlt. lia.
      * apply NoDup_singleton.
    + exact (inv_permanent _ Hinv1).
    + intros ch Hin%(inv_closed _ Hinv1). simpl in Hin. lia.
  - exact Hclosed.
  - eexists. by rewrite lookup_insert_eq.
Qed.

Lemma startPermanentPlugins_inv (order : list (string * D)) s :
  supervisor_inv s →
  Forall (λ e, GetDeviceName e.2 = e.1) order →
  ∃ s', startPermanentPlugins order s = Some s' ∧ supervisor_inv s'.
Proof.
  unfold startPermanentPlugins. revert s.
  induction order as [|[name dev] order IH]; intros s Hinv Horder; simpl.
  - by exists s.
  - inversion Horder as [|? ? Hname Horder']; subst. simpl in Hname.
    destruct (startDevice_inv name dev s Hinv Hname)
      as (s1 & -> & Hinv1 & _). simpl. by apply IH.
Qed.

Lemma stopAllPlugins_inv (order : list string) s :
  supervisor_inv s →
  ∃ s', stopAllPlugins order s = Some s' ∧ supervisor_inv s'.
Proof.
  unfold stopAllPlugins. revert s.
  induction order as [|name order IH]; intros s Hinv; simpl.
  - by exists s.
  - destruct (stopDevice_inv name s Hinv) as (s1 & -> & Hinv1 & _).
    simpl. by apply IH.
Qed.

(** No critical section of [Run] panics under the invariant, and each
    keeps it. *)
Lemma run_op_inv (op : supervisorOp D) s :
  supervisor_inv s →
  admissible s op →
  ∃ s', run_op op s = Some s' ∧ supervisor_inv s'.
Proof.
  intros Hinv Hadm. destruct op as [order|device|order]; simpl in *.
  - apply startPermanentPlugins_inv; [done|].
    apply Forall_forall. intros [name dev] Hin. simpl.
    rewrite Hadm in Hin. apply elem_of_map_to_list in Hin.
    by apply (inv_permanent s Hinv).
  - destruct (startDevice_inv (GetDeviceName device) device s Hinv eq_refl)
      as (s' & Hs' & Hinv' & _).
    by exists s'.
  - by apply stopAllPlugins_inv.
Qed.

Lemma reachable_inv (plugins : list D) (n : Z) s :
  reachable plugins n s → supervisor_inv s.
Proof.
  induction 1 as [|s op s' _ IH Hadm Hrun].
  - apply NewBridgeDeviceController_inv.
  - destruct (run_op_inv op s IH Hadm) as (s'' & Hs'' & Hinv'').
    congruence.
Qed.

End SupervisorProps.

(** ** Instances of the properties on a node with the bridge [br0] *)

Lemma health_reflects_operState_witness :
  let evs := [HcLinkUpdate "br0" OperUp; HcLinkUpdate "eth0" OperDown;
              HcLinkUpdate "br0" OperDown; HcStop] in
  let pubs :=
    hc_published (healthCheck br0 setup_without_errors (LinkNotFoundError "") evs) in
  let msgs := law_sent (ListAndWatch br0 (RecvHealth <$> pubs)) in
  ∃ h m, pubs !! 1%nat = Some h ∧ msgs !! 2%nat = Some m ∧
         dh_Health h = Healthy ∧ Forall (λ dev, Health dev = dh_Health h) m.
Proof.
  intros evs pubs msgs.
  assert (setup_ok setup_without_errors) as Hsetup by (by repeat split).
  destruct (health_reflects_operState br0 setup_without_errors
              (LinkNotFoundError "") evs Hsetup) as [_ Hobs].
  destruct (Hobs 1%nat (Some OperUp) eq_refl)
    as (h & m & Hh & Hm & Hup & _ & _ & Hall).
  exists h, m. split; [exact Hh|]. split; [exact Hm|].
  split; [by apply Hup | exact Hall].
Defined.


Lemma Initialized_iff_all_initialized_witness :
  Initialized (NewBridgeDeviceController [br0] 2) = true.
Proof.
  assert ([] ≡ₚ map_to_list
                  (startedPlugins (NewBridgeDeviceController [br0] 2)))
    as Horder by (simpl; by rewrite map_to_list_empty).
  destruct (Initialized_iff_all_initialized
              (NewBridgeDeviceController [br0] 2) [] Horder)
    as (_ & _ & Hempty).
  exact (Hempty eq_refl).
Defined.

(** * Further properties of the package *)

(** ** Supervised-start wrapper: the restart loop *)

Lemma go_index_elem_of {A} (l : list A) (i : Z) (x : A) :
  go_index l i = Some x → x ∈ l.
Proof.
  unfold go_index. destruct (i <? 0); [done|].
  intros Hx. by eapply list_elem_of_lookup_2.
Qed.

Lemma restart_loop_events_scheduled (bo : list Duration) (r : Z)
    (its : list iteration) (ev : loopEvent) :
  bo ≠ [] → in_schedule bo r →
  ev ∈ restart_loop bo r its →
  ev ≠ LoopPanic ∧ ∀ d, ev = WaitFor d → d ∈ bo.
Proof.
  intros Hbo. revert r. induction its as [|it its IH]; intros r Hr Hev.
  - by apply elem_of_nil in Hev.
  - simpl in Hev.
    pose proof (next_retries_in_schedule bo Hbo r (start_err it) Hr) as Hr'.
    destruct (go_index_in_schedule bo _ Hr') as [d Hd]. rewrite Hd in Hev.
    apply elem_of_cons in Hev as [->|Hev]; [split; [done|]; by intros |].
    destruct (selected it).
    + apply list_elem_of_singleton in Hev as ->. split; [done|]. by intros.
    + apply elem_of_cons in Hev as [->|Hev].
      * split; [done|]. intros d' [= <-]. by eapply go_index_elem_of.
      * by eapply IH.
Qed.

(** X1.  With a non-empty schedule the restart loop never indexes the
    schedule out of range, whatever the starts return and however often
    they fail, and every wait it makes is an entry of the schedule. *)
Theorem restart_loop_never_panics (bo : list Duration)
    (its : list iteration) (ev : loopEvent) :
  bo ≠ [] →
  ev ∈ restart_loop bo 0 its →
  ev ≠ LoopPanic ∧ ∀ d, ev = WaitFor d → d ∈ bo.
Proof.
  intros Hbo. apply restart_loop_events_scheduled; [done|].
  pose proof (len_pos bo Hbo). unfold in_schedule. lia.
Qed.

Lemma restart_loop_never_panics_witness :
  WaitFor (10 * Second) ≠ LoopPanic ∧
  ∀ d, WaitFor (10 * Second) = WaitFor d → d ∈ defaultBackoffTime.
Proof.
  refine (restart_loop_never_panics defaultBackoffTime
            (replicate 5 (failed_start "bind")) (WaitFor (10 * Second)) _ _).
  - done.
  - vm_compute. repeat constructor.
Defined.

Lemma starts_in_app (tr1 tr2 : list loopEvent) :
  starts_in (tr1 ++ tr2) = (starts_in tr1 + starts_in tr2)%nat.
Proof. unfold starts_in. by rewrite filter_app, length_app. Qed.

Lemma restart_loop_starts (bo : list Duration) (r : Z) (its : list iteration) :
  bo ≠ [] → in_schedule bo r →
  Forall (λ it, selected it = TimerFired) its →
  starts_in (restart_loop bo r its) = length its.
Proof.
  intros Hbo. revert r. induction its as [|it its IH]; intros r Hr Hits.
  - done.
  - inversion Hits as [|? ? Hit Hits']; subst. simpl.
    pose proof (next_retries_in_schedule bo Hbo r (start_err it) Hr) as Hr'.
    destruct (go_index_in_schedule bo _ Hr') as [d ->]. rewrite Hit.
    change (starts_in (CallStart :: WaitFor d :: ?tr))
      with (S (starts_in tr)).
    by rewrite IH.
Qed.

(** X2.  Once the stop channel wins the [select], the restart loop returns:
    whatever the environment would answer afterwards, the trace ends with
    that return, and [dev.Start] has been invoked once per completed
    iteration and once more. *)
Theorem restart_loop_returns_on_stop (bo : list Duration)
    (pre rest : list iteration) (it : iteration) :
  bo ≠ [] →
  Forall (λ it, selected it = TimerFired) pre →
  selected it = StopClosed →
  restart_loop bo 0 (pre ++ it :: rest) =
    restart_loop bo 0 pre ++ [CallStart; LoopReturn] ∧
  starts_in (restart_loop bo 0 (pre ++ it :: rest)) = S (length pre).
Proof.
  intros Hbo Hpre Hit.
  assert (in_schedule bo 0) as H0.
  { pose proof (len_pos bo Hbo). unfold in_schedule. lia. }
  assert (restart_loop bo 0 (pre ++ it :: rest) =
          restart_loop bo 0 pre ++ [CallStart; LoopReturn]) as Heq.
  { rewrite restart_loop_app by done. f_equal. simpl.
    set (r := retries_after bo 0 (start_err <$> pre)).
    assert (in_schedule bo r) as Hr by by apply retries_after_in_schedule.
    pose proof (next_retries_in_schedule bo Hbo r (start_err it) Hr) as Hr'.
    destruct (go_index_in_schedule bo _ Hr') as [d ->]. by rewrite Hit. }
  split; [done|].
  rewrite Heq, starts_in_app, restart_loop_starts by done.
  change (starts_in [CallStart; LoopReturn]) with 1%nat. lia.
Qed.

Lemma restart_loop_returns_on_stop_witness :
  restart_loop defaultBackoffTime 0
    ([failed_start "bind"] ++
     {| start_err := None; selected := StopClosed |} :: [clean_start]) =
  [CallStart; WaitFor (2 * Second); CallStart; LoopReturn].
Proof.
  refine (proj1 (restart_loop_returns_on_stop defaultBackoffTime
                   [failed_start "bind"] [clean_start]
                   {| start_err := None; selected := StopClosed |} _ _ _)).
  - done.
  - by repeat constructor.
  - done.
Defined.

(** X3.  Whatever came before, a start that returns nil is followed by a
    wait of the first entry of the schedule: failures before it leave no
    trace in the backoff. *)
Theorem restart_loop_clean_start_waits_first (bo : list Duration)
    (pre : list iteration) :
  bo ≠ [] →
  Forall (λ it, selected it = TimerFired) pre →
  last (restart_loop bo 0 (pre ++ [clean_start])) = WaitFor <$> head bo.
Proof.
  intros Hbo Hpre.
  assert (in_schedule bo 0) as H0.
  { pose proof (len_pos bo Hbo). unfold in_schedule. lia. }
  rewrite restart_loop_app by done. simpl.
  destruct bo as [|d bo]; [done|]. simpl.
  by rewrite last_app.
Qed.

Lemma restart_loop_clean_start_waits_first_witness :
  last (restart_loop defaultBackoffTime 0
          (replicate 7 (failed_start "bind") ++ [clean_start])) =
    Some (WaitFor (1 * Second)).
Proof.
  refine (restart_loop_clean_start_waits_first defaultBackoffTime
            (replicate 7 (failed_start "bind")) _ _).
  - done.
  - by repeat constructor.
Defined.

(** ** Supervised-start wrapper: schedules and restarts *)

(** X4.  [Start] on a stopped wrapper spawns one loop for the wrapped
    device; a nil schedule falls back to the default one, any other
    schedule is taken as it is, and a schedule that is empty but not nil
    makes the loop panic at its first wait, whatever the start returned. *)
Theorem controlledDevice_Start_schedule {D : Type}
    (c : controlledDevice D) (w : world D) :
  started c = false →
  (∃ l, goroutines (controlledDevice_Start c w).2 = goroutines w ++ [l] ∧
        loop_dev l = devicePlugin c ∧
        (backoff c = None → loop_backoff l = defaultBackoffTime) ∧
        (∀ b, backoff c = Some b → loop_backoff l = b)) ∧
  (∀ r it its, restart_loop [] r (it :: its) = [CallStart; LoopPanic]).
Proof.
  intros Hs. split.
  - unfold controlledDevice_Start. rewrite Hs. simpl. eexists.
    split; [done|]. split; [done|]. split.
    + by intros ->.
    + by intros b ->.
  - intros r it its. simpl. unfold go_index.
    by destruct (next_retries [] r (start_err it) <? 0).
Qed.

Lemma controlledDevice_Start_schedule_witness :
  ∃ l, goroutines
         (controlledDevice_Start
            {| devicePlugin := br0; started := false; stopChan := None;
               backoff := None |} new_world).2 = [l] ∧
       loop_backoff l = defaultBackoffTime.
Proof.
  destruct (controlledDevice_Start_schedule
              {| devicePlugin := br0; started := false; stopChan := None;
                 backoff := None |} new_world eq_refl)
    as [(l & Hl & _ & Hnil & _) _].
  exists l. split; [exact Hl | exact (Hnil eq_refl)].
Defined.

(** X5.  A wrapper that is started, stopped and started again runs its
    second loop on a channel of its own: the first loop is stopped and
    stays stopped, the second is live, and the loops that were there
    before are as live as they were. *)
Theorem controlledDevice_restart_fresh_channel {D : Type}
    (c : controlledDevice D) (w : world D) :
  world_wf w →
  started c = false →
  ∃ c1 w1 c2 w2 c3 w3 l1 l3,
    controlledDevice_Start c w = (c1, w1) ∧
    controlledDevice_Stop c1 w1 = Some (c2, w2) ∧
    controlledDevice_Start c2 w2 = (c3, w3) ∧
    goroutines w3 = goroutines w ++ [l1; l3] ∧
    stopChan c1 = Some (loop_stop l1) ∧
    stopChan c3 = Some (loop_stop l3) ∧
    loop_stop l1 ≠ loop_stop l3 ∧
    ¬ live w3 l1 ∧ live w3 l3 ∧
    (∀ l, l ∈ goroutines w → (live w3 l ↔ live w l)).
Proof.
  intros [Hclosed Hloops] Hs.
  assert (next_chan w ∉ closed_chans w) as Hfresh.
  { intros Hin%Hclosed. lia. }
  do 8 eexists.
  split; [unfold controlledDevice_Start; rewrite Hs; reflexivity|].
  split.
  { unfold controlledDevice_Stop, close_chan. simpl.
    rewrite decide_False by done. reflexivity. }
  split; [reflexivity|].
  split; [simpl; rewrite <- app_assoc; reflexivity|]. simpl.
  split; [done|]. split; [done|]. split; [lia|].
  unfold live. simpl. split; [set_solver|]. split.
  - intros [Heq%elem_of_singleton|Hin%Hclosed]%elem_of_union; lia.
  - intros l Hl%Hloops. split.
    + intros Hopen Hin. apply Hopen. set_solver.
    + intros Hopen [Heq%elem_of_singleton|Hin]%elem_of_union; [lia|done].
Qed.

Lemma controlledDevice_restart_fresh_channel_witness :
  ∃ c1 w1 c2 w2 c3 w3,
    controlledDevice_Start wrapper_br0 new_world = (c1, w1) ∧
    controlledDevice_Stop c1 w1 = Some (c2, w2) ∧
    controlledDevice_Start c2 w2 = (c3, w3) ∧
    length (goroutines w3) = 2%nat.
Proof.
  assert (world_wf (new_world (D := BridgeDevicePlugin))) as Hwf.
  { split; [intros ch Hch; by apply elem_of_empty in Hch
           |intros l Hl; by apply elem_of_nil in Hl]. }
  destruct (controlledDevice_restart_fresh_channel wrapper_br0 new_world
              Hwf eq_refl)
    as (c1 & w1 & c2 & w2 & c3 & w3 & l1 & l3 & H1 & H2 & H3 & Hg & _).
  exists c1, w1, c2, w2, c3, w3.
  split; [exact H1|]. split; [exact H2|]. split; [exact H3|].
  by rewrite Hg.
Defined.

(** ** Device supervisor: what the operations change *)

Section SupervisorFrame.
Context {D : Type} `{Device D}.
Implicit Types (c : BridgeDeviceController D) (w : world D).
Implicit Types (s : supervisor D) (cd : controlledDevice D).

Lemma stopDevice_shape (name : string) s s' :
  stopDevice name s = Some s' →
  startedPlugins s'.1 = delete name (startedPlugins s.1) ∧
  permanentPlugins s'.1 = permanentPlugins s.1 ∧
  ctl_backoff s'.1 = ctl_backoff s.1 ∧
  goroutines s'.2 = goroutines s.2 ∧
  next_chan s'.2 = next_chan s.2 ∧
  (∀ ch, ch ∈ closed_chans s'.2 →
     ch ∈ closed_chans s.2 ∨
     ∃ cd, startedPlugins s.1 !! name = Some cd ∧ stopChan cd = Some ch).
Proof.
  destruct s as [c w]. unfold stopDevice.
  destruct (startedPlugins c !! name) as [cd|] eqn:Hcd.
  - unfold controlledDevice_Stop.
    destruct (started cd); simpl.
    + unfold close_chan. destruct (stopChan cd) as [ch|] eqn:Hch; [|done].
      destruct (decide (ch ∈ closed_chans w)); [done|]. simpl.
      intros [= <-]. simpl. repeat split; try done.
      intros ch' [Heq%elem_of_singleton|Hin]%elem_of_union; [|by left].
      right. exists cd. by subst.
    + intros [= <-]. simpl. repeat split; try done. by left.
  - intros [= <-]. simpl. rewrite delete_id by done.
    repeat split; try done. by left.
Qed.

Lemma startDevice_shape (name : string) (dev : D) s s' :
  startDevice name dev s = Some s' →
  ∃ s1 cd l,
    stopDevice name s = Some s1 ∧
    startedPlugins s'.1 = <[name := cd]> (startedPlugins s1.1) ∧
    devicePlugin cd = dev ∧ started cd = true ∧
    stopChan cd = Some (next_chan s1.2) ∧
    permanentPlugins s'.1 = permanentPlugins s1.1 ∧
    ctl_backoff s'.1 = ctl_backoff s1.1 ∧
    goroutines s'.2 = goroutines s1.2 ++ [l] ∧
    loop_dev l = dev ∧ loop_stop l = next_chan s1.2 ∧
    loop_backoff l = default defaultBackoffTime (ctl_backoff s1.1) ∧
    next_chan s'.2 = S (next_chan s1.2) ∧
    closed_chans s'.2 = closed_chans s1.2.
Proof.
  unfold startDevice.
  destruct (stopDevice name s) as [[c1 w1]|] eqn:Hstop; [|done]. simpl.
  intros [= <-]. eexists (c1, w1), _, _. simpl.
  split; [done|]. split; [done|]. repeat split.
Qed.

(** X6.  Starting a plugin under its device's name touches no other name:
    every wrapper filed under another name stays in the map as it was, and
    its restart loop stays live. *)
Theorem startDevice_leaves_others (plugins : list D) (n : Z)
    (dev : D) s s' :
  reachable plugins n s →
  startDevice (GetDeviceName dev) dev s = Some s' →
  ∀ name cd, name ≠ GetDeviceName dev →
    startedPlugins s.1 !! name = Some cd →
    startedPlugins s'.1 !! name = Some cd ∧
    ∃ l, l ∈ goroutines s'.2 ∧ live s'.2 l ∧
         stopChan cd = Some (loop_stop l) ∧ loop_dev l = devicePlugin cd.
Proof.
  intros Hinv%reachable_inv Hstart name cd Hne Hcd.
  destruct (startDevice_inv _ dev s Hinv eq_refl) as (s'' & Hs'' & Hinv' & _).
  rewrite Hstart in Hs''. injection Hs'' as <-.
  destruct (startDevice_shape _ _ _ _ Hstart)
    as (s1 & cd' & l' & Hstop & Hmap & _).
  destruct (stopDevice_shape _ _ _ Hstop) as (Hmap1 & _).
  assert (startedPlugins s'.1 !! name = Some cd) as Hcd'.
  { rewrite Hmap, lookup_insert_ne by done.
    by rewrite Hmap1, lookup_delete_ne by done. }
  split; [done|].
  destruct (inv_started s' Hinv' name cd Hcd')
    as (_ & _ & ch & l & Hch & Hopen & Hl & Hlch & Hldev).
  exists l. unfold live. by rewrite Hlch.
Qed.

Lemma stopAllPlugins_lookup (order : list string) s s' :
  stopAllPlugins order s = Some s' →
  (∀ name, startedPlugins s'.1 !! name =
           if decide (name ∈ order) then None
           else startedPlugins s.1 !! name) ∧
  goroutines s'.2 = goroutines s.2.
Proof.
  unfold stopAllPlugins. revert s.
  induction order as [|k order IH]; intros s; simpl.
  - intros [= <-]. split; [|done]. intros name.
    destruct (decide (name ∈ [])) as [Hin|]; [|done].
    by apply elem_of_nil in Hin.
  - destruct (stopDevice k s) as [s1|] eqn:Hstop; [|done]. simpl.
    intros Hrest. destruct (IH _ Hrest) as [Hlookup Hloops].
    destruct (stopDevice_shape _ _ _ Hstop) as (Hmap & _ & _ & Hg & _).
    split; [|congruence]. intros name. rewrite Hlookup, Hmap.
    destruct (decide (name ∈ order)) as [Hin|Hnin].
    + rewrite decide_True; [done|]. by apply list_elem_of_further.
    + destruct (decide (name = k)) as [->|Hne].
      * rewrite decide_True by apply list_elem_of_here.
        apply lookup_delete_eq.
      * rewrite decide_False; [by rewrite lookup_delete_ne|].
        intros [?|?]%elem_of_cons; done.
Qed.

(** X7.  The shutdown of [Run] stops everything: ranging over the started
    plugins in any order, [stopAllPlugins] does not panic, leaves the map
    empty and leaves no restart loop live; no goroutine is spawned. *)
Theorem stopAllPlugins_stops_all (plugins : list D) (n : Z)
    (order : list string) s :
  reachable plugins n s →
  order ≡ₚ (map_to_list (startedPlugins s.1)).*1 →
  ∃ s', stopAllPlugins order s = Some s' ∧
        startedPlugins s'.1 = ∅ ∧
        goroutines s'.2 = goroutines s.2 ∧
        ∀ l, l ∈ goroutines s'.2 → ¬ live s'.2 l.
Proof.
  intros Hinv%reachable_inv Horder.
  destruct (stopAllPlugins_inv order s Hinv) as (s' & Hstop & Hinv').
  destruct (stopAllPlugins_lookup _ _ _ Hstop) as [Hlookup Hloops].
  assert (startedPlugins s'.1 = ∅) as Hempty.
  { apply map_empty. intros name. rewrite Hlookup.
    destruct (decide (name ∈ order)) as [|Hnin]; [done|].
    destruct (startedPlugins s.1 !! name) as [cd|] eqn:Hcd; [|done].
    exfalso. apply Hnin. rewrite Horder.
    apply list_elem_of_fmap. exists (name, cd). split; [done|].
    by apply elem_of_map_to_list. }
  exists s'. split; [done|]. split; [done|]. split; [done|].
  intros l Hl Hlive.
  destruct (inv_loops s' Hinv' l Hl) as [_ Hcd].
  destruct (Hcd Hlive) as (cd & Hlookup' & _).
  by rewrite Hempty, lookup_empty in Hlookup'.
Qed.

Lemma startPermanentPlugins_lookup (order : list (string * D)) s s' :
  NoDup order.*1 →
  startPermanentPlugins order s = Some s' →
  (∀ name dev, (name, dev) ∈ order →
     ∃ cd, startedPlugins s'.1 !! name = Some cd ∧
           devicePlugin cd = dev ∧ started cd = true) ∧
  (∀ name, name ∉ order.*1 →
     startedPlugins s'.1 !! name = startedPlugins s.1 !! name) ∧
  length (goroutines s'.2) = (length (goroutines s.2) + length order)%nat.
Proof.
  unfold startPermanentPlugins. revert s.
  induction order as [|[k d] order IH]; intros s Hnd; simpl.
  - intros [= <-]. split; [|done]. intros name dev Hin.
    by apply elem_of_nil in Hin.
  - apply NoDup_cons in Hnd as [Hk Hnd].
    destruct (startDevice k d s) as [s1|] eqn:Hstart; [|done]. simpl.
    intros Hrest. destruct (IH _ Hnd Hrest) as (Hin & Hout & Hlen).
    destruct (startDevice_shape _ _ _ _ Hstart)
      as (s0 & cd & l & Hstop & Hmap & Hdev & Hst & _ & _ & _ & Hg & _).
    destruct (stopDevice_shape _ _ _ Hstop) as (Hmap0 & _ & _ & Hg0 & _).
    split; [|split].
    + intros name dev [[= -> ->]|Hin']%elem_of_cons; [|by apply Hin].
      exists cd. rewrite (Hout k Hk), Hmap, lookup_insert_eq. done.
    + intros name Hname. apply not_elem_of_cons in Hname as [Hne Hname].
      rewrite (Hout name Hname), Hmap, lookup_insert_ne by done.
      by rewrite Hmap0, lookup_delete_ne by done.
    + rewrite Hlen, Hg, Hg0, length_app. simpl. lia.
Qed.

(** X8.  Starting the permanent plugins, in any order of ranging over the
    map, does not panic, files a started wrapper of each permanent plugin
    under its name, leaves every name that is not a permanent one as it
    was, and spawns one restart loop per permanent plugin. *)
Theorem startPermanentPlugins_starts_all (plugins : list D) (n : Z)
    (order : list (string * D)) s :
  reachable plugins n s →
  order ≡ₚ map_to_list (permanentPlugins s.1) →
  ∃ s', startPermanentPlugins order s = Some s' ∧
    (∀ name dev, permanentPlugins s.1 !! name = Some dev →
       ∃ cd, startedPlugins s'.1 !! name = Some cd ∧
             devicePlugin cd = dev ∧ started cd = true) ∧
    (∀ name, permanentPlugins s.1 !! name = None →
       startedPlugins s'.1 !! name = startedPlugins s.1 !! name) ∧
    length (goroutines s'.2) =
      (length (goroutines s.2) + size (permanentPlugins s.1))%nat.
Proof.
  intros Hinv%reachable_inv Horder.
  destruct (run_op_inv (OpStartPermanent order) s Hinv Horder)
    as (s' & Hrun & _). simpl in Hrun.
  assert (NoDup order.*1) as Hnd.
  { rewrite Horder. apply NoDup_fst_map_to_list. }
  destruct (startPermanentPlugins_lookup _ _ _ Hnd Hrun)
    as (Hin & Hout & Hlen).
  exists s'. split; [done|]. split; [|split].
  - intros name dev Hdev. apply Hin. rewrite Horder.
    by apply elem_of_map_to_list.
  - intros name Hnone. apply Hout. rewrite Horder.
    intros ([k d] & -> & Hkd%elem_of_map_to_list)%list_elem_of_fmap.
    simpl in Hnone. congruence.
  - rewrite Hlen. f_equal. rewrite Horder.
    apply length_map_to_list.
Qed.
End SupervisorFrame.

Lemma supervisor_br0_reachable : reachable [br0] 2 supervisor_br0.
Proof.
  eapply (reachable_op [br0] 2 supervisor_new (OpStartNew br0)).
  - apply reachable_new.
  - exact I.
  - reflexivity.
Qed.

Lemma startDevice_leaves_others_witness :
  ∃ cd, startedPlugins supervisor_br0_br1.1 !! "br0" = Some cd ∧
        startedPlugins supervisor_br0.1 !! "br0" = Some cd.
Proof.
  assert (startDevice (GetDeviceName br1) br1 supervisor_br0 =
          Some supervisor_br0_br1) as Hstart by reflexivity.
  assert (∃ cd, startedPlugins supervisor_br0.1 !! "br0" = Some cd)
    as [cd Hcd] by (eexists; reflexivity).
  destruct (startDevice_leaves_others [br0] 2 br1 supervisor_br0
              supervisor_br0_br1 supervisor_br0_reachable Hstart
              "br0" cd ltac:(discriminate) Hcd) as [Hcd' _].
  exists cd. split; [exact Hcd' | exact Hcd].
Defined.

Lemma stopAllPlugins_stops_all_witness :
  ∃ s', stopAllPlugins ["br0"] supervisor_br0 = Some s' ∧
        startedPlugins s'.1 = ∅.
Proof.
  assert (["br0"] ≡ₚ (map_to_list (startedPlugins supervisor_br0.1)).*1)
    as Horder by (vm_compute; reflexivity).
  destruct (stopAllPlugins_stops_all [br0] 2 ["br0"] supervisor_br0
              supervisor_br0_reachable Horder) as (s' & Hstop & Hempty & _).
  exists s'. split; [exact Hstop | exact Hempty].
Defined.

Lemma startPermanentPlugins_starts_all_witness :
  ∃ s' cd, startPermanentPlugins [("br0", br0)] supervisor_new = Some s' ∧
           startedPlugins s'.1 !! "br0" = Some cd ∧ devicePlugin cd = br0.
Proof.
  assert ([("br0", br0)] ≡ₚ map_to_list (permanentPlugins supervisor_new.1))
    as Horder by (vm_compute; reflexivity).
  destruct (startPermanentPlugins_starts_all [br0] 2 [("br0", br0)]
              supervisor_new (reachable_new [br0] 2) Horder)
    as (s' & Hstart & Hin & _).
  destruct (Hin "br0" br0 eq_refl) as (cd & Hcd & Hdev & _).
  exists s', cd. split; [exact Hstart|]. split; [exact Hcd | exact Hdev].
Defined.

(** ** Device supervisor: construction, discovery and [Run] *)

Lemma go_range_preserves {A S : Type} (P : S → Prop)
    (body : A → S → option S) (xs : list A) (s s' : S) :
  (∀ x s s', P s → body x s = Some s' → P s') →
  P s → go_range body xs s = Some s' → P s'.
Proof.
  intros Hbody. revert s. induction xs as [|x xs IH]; intros s Hs; simpl.
  - by intros [= <-].
  - destruct (body x s) as [s1|] eqn:Hx; [|done]. simpl.
    apply IH. by eapply Hbody.
Qed.

Lemma NewBridgeDevicePlugin_deviceName (d : string) (n : Z) :
  deviceName (NewBridgeDevicePlugin d n) = d.
Proof.
  unfold NewBridgeDevicePlugin.
  match goal with
  | |- deviceName (foldl _ ?dpi0 _) = _ =>
      destruct (slot_loop_devs dpi0 (seqZ 0 n)) as [Hname _]
  end.
  exact Hname.
Qed.

Section SupervisorRun.
Context {D : Type} `{Device D}.
Implicit Types (s : supervisor D).

Lemma permanentPluginsMap_lookup (plugins : list D) (m : gmap string D)
    (name : string) :
  foldl (λ m p, <[GetDeviceName p := p]> m) m plugins !! name =
    match last (filter (λ p, GetDeviceName p = name) plugins) with
    | Some p => Some p
    | None => m !! name
    end.
Proof.
  induction plugins as [|p plugins IH] using rev_ind; [done|].
  rewrite foldl_snoc, filter_app, last_app, filter_cons, filter_nil.
  destruct (decide (GetDeviceName p = name)) as [Hp|Hp]; simpl.
  - by rewrite <- Hp, lookup_insert_eq.
  - by rewrite lookup_insert_ne.
Qed.

Lemma NewBridgeDeviceController_lookup (plugins : list D) (n : Z)
    (name : string) :
  permanentPlugins (NewBridgeDeviceController plugins n) !! name =
    last (filter (λ p, GetDeviceName p = name) plugins).
Proof.
  simpl. rewrite permanentPluginsMap_lookup, lookup_empty.
  by destruct (last _).
Qed.

(** X9.  The supervisor is built with the permanent plugins filed under
    their device names, the last one in the list winning where two share a
    name, and with nothing started: it reports itself initialized. *)
Theorem NewBridgeDeviceController_permanent (plugins : list D) (n : Z) :
  (∀ name,
     permanentPlugins (NewBridgeDeviceController plugins n) !! name =
       last (filter (λ p, GetDeviceName p = name) plugins)) ∧
  startedPlugins (NewBridgeDeviceController plugins n) = ∅ ∧
  Initialized (NewBridgeDeviceController plugins n) = true.
Proof.
  split; [|split].
  - apply NewBridgeDeviceController_lookup.
  - done.
  - unfold Initialized. simpl. by rewrite map_to_list_empty.
Qed.

Lemma stopDevice_default_schedules (name : string) s s' :
  default_schedules s → stopDevice name s = Some s' → default_schedules s'.
Proof.
  intros [Hb Hl] Hstop.
  destruct (stopDevice_shape _ _ _ Hstop) as (_ & _ & Hb' & Hg & _).
  split; [congruence|]. by rewrite Hg.
Qed.

Lemma startDevice_default_schedules (name : string) (dev : D) s s' :
  default_schedules s → startDevice name dev s = Some s' →
  default_schedules s'.
Proof.
  intros Hs Hstart.
  destruct (startDevice_shape _ _ _ _ Hstart)
    as (s1 & cd & l & Hstop & _ & _ & _ & _ & _ & Hb & Hg & _ & _ & Hlb & _).
  destruct (stopDevice_default_schedules _ _ _ Hs Hstop) as [Hb1 Hl1].
  split; [congruence|]. rewrite Hg.
  intros l' [Hl'|Heq%list_elem_of_singleton]%elem_of_app; [by apply Hl1|].
  subst l'. by rewrite Hlb, Hb1.
Qed.

(** X10.  Every restart loop the supervisor spawns runs on the default
    schedule, so none of them can panic on its schedule and each waits
    1s, 2s, 5s or 10s between starts. *)
Theorem supervised_loops_default_schedule (plugins : list D) (n : Z) s :
  reachable plugins n s →
  ∀ l, l ∈ goroutines s.2 →
    loop_backoff l = defaultBackoffTime ∧
    ∀ its ev, ev ∈ restart_loop (loop_backoff l) 0 its →
      ev ≠ LoopPanic ∧
      ∀ d, ev = WaitFor d →
           d ∈ [1 * Second; 2 * Second; 5 * Second; 10 * Second].
Proof.
  intros Hreach.
  assert (default_schedules s) as [_ Hloops].
  { induction Hreach as [|s op s' _ IH _ Hrun].
    - split; [done|]. intros l Hl. by apply elem_of_nil in Hl.
    - destruct op as [order|device|order]; simpl in Hrun.
      + eapply (go_range_preserves default_schedules); [|exact IH|exact Hrun].
        intros [name dev] s1 s2. apply startDevice_default_schedules.
      + by eapply startDevice_default_schedules.
      + eapply (go_range_preserves default_schedules); [|exact IH|exact Hrun].
        intros name s1 s2. apply stopDevice_default_schedules. }
  intros l Hl. rewrite (Hloops l Hl). split; [done|].
  intros its ev Hev.
  by apply (restart_loop_events_scheduled defaultBackoffTime 0 its).
Qed.

(** Under the invariant the shutdown empties the map and leaves no loop
    live. *)
Lemma stopAllPlugins_clears (order : list string) s :
  supervisor_inv s →
  order ≡ₚ (map_to_list (startedPlugins s.1)).*1 →
  ∃ s', stopAllPlugins order s = Some s' ∧
        startedPlugins s'.1 = ∅ ∧
        goroutines s'.2 = goroutines s.2 ∧
        ∀ l, l ∈ goroutines s'.2 → ¬ live s'.2 l.
Proof.
  intros Hinv Horder.
  destruct (stopAllPlugins_inv order s Hinv) as (s' & Hstop & Hinv').
  destruct (stopAllPlugins_lookup _ _ _ Hstop) as [Hlookup Hloops].
  assert (startedPlugins s'.1 = ∅) as Hempty.
  { apply map_empty. intros name. rewrite Hlookup.
    destruct (decide (name ∈ order)) as [|Hnin]; [done|].
    destruct (startedPlugins s.1 !! name) as [cd|] eqn:Hcd; [|done].
    exfalso. apply Hnin. rewrite Horder.
    apply list_elem_of_fmap. exists (name, cd). split; [done|].
    by apply elem_of_map_to_list. }
  exists s'. split; [done|]. split; [done|]. split; [done|].
  intros l Hl Hlive.
  destruct (inv_loops s' Hinv' l Hl) as [_ Hcd].
  destruct (Hcd Hlive) as (cd & Hlookup' & _).
  by rewrite Hempty, lookup_empty in Hlookup'.
Qed.

(** The receiving part of [Run]: every plugin received is started. *)
Lemma Run_loop_receives (stop_order : rangeOrder D) (devices : list D)
    (evs : list (runSelect D)) s :
  supervisor_inv s →
  ∃ s', Run_loop stop_order ((RunRecv ∘ Some <$> devices) ++ evs) s =
          Run_loop stop_order evs s' ∧
        supervisor_inv s' ∧
        length (goroutines s'.2) =
          (length (goroutines s.2) + length devices)%nat.
Proof.
  revert s. induction devices as [|dev devices IH]; intros s Hinv; simpl.
  - exists s. split; [done|]. split; [done|]. lia.
  - destruct (startDevice_inv (GetDeviceName dev) dev s Hinv eq_refl)
      as (s1 & Hstart & Hinv1 & _).
    unfold startNewPlugin. rewrite Hstart.
    destruct (IH s1 Hinv1) as (s' & Hloop & Hinv' & Hlen).
    exists s'. split; [done|]. split; [done|]. rewrite Hlen.
    destruct (startDevice_shape _ _ _ _ Hstart)
      as (s0 & cd & l & Hstop & _ & _ & _ & _ & _ & _ & Hg & _).
    destruct (stopDevice_shape _ _ _ Hstop) as (_ & _ & _ & Hg0 & _).
    rewrite Hg, Hg0, length_app. simpl. lia.
Qed.

(** X11.  [Run] on a new supervisor starts the permanent plugins and every
    plugin it receives, one restart loop each; when [stop] is selected
    it returns nil with no plugin started and no restart loop live,
    whatever would follow.  If a receive from the closed [newPlugins]
    channel is selected first, the nil device received makes [Run]
    panic. *)
Theorem Run_returns_with_all_stopped (plugins devices : list D) (n : Z)
    (perm_order : list (string * D)) (stop_order : rangeOrder D)
    (rest : list (runSelect D)) :
  perm_order ≡ₚ
    map_to_list (permanentPlugins (NewBridgeDeviceController plugins n)) →
  (∀ m, stop_order m ≡ₚ (map_to_list m).*1) →
  (∃ s', Run perm_order stop_order
           ((RunRecv ∘ Some <$> devices) ++ RunStop :: rest)
           (NewBridgeDeviceController plugins n, new_world)
           = (Returned None, s') ∧
         startedPlugins s'.1 = ∅ ∧
         (∀ l, l ∈ goroutines s'.2 → ¬ live s'.2 l) ∧
         length (goroutines s'.2) =
           (size (permanentPlugins (NewBridgeDeviceController plugins n))
            + length devices)%nat) ∧
  (Run perm_order stop_order
     ((RunRecv ∘ Some <$> devices) ++ RunRecv None :: rest)
     (NewBridgeDeviceController plugins n, new_world)).1 = Panicked.
Proof.
  intros Hperm Hstop.
  set (s0 := (NewBridgeDeviceController plugins n, new_world)).
  assert (supervisor_inv s0) as Hinv0 by apply NewBridgeDeviceController_inv.
  destruct (run_op_inv (OpStartPermanent perm_order) s0 Hinv0 Hperm)
    as (s1 & Hstart & Hinv1). simpl in Hstart.
  assert (NoDup perm_order.*1) as Hnd.
  { rewrite Hperm. apply NoDup_fst_map_to_list. }
  destruct (startPermanentPlugins_lookup _ _ _ Hnd Hstart) as (_ & _ & Hlen1).
  unfold Run. rewrite Hstart. split.
  - destruct (Run_loop_receives stop_order devices (RunStop :: rest) s1 Hinv1)
      as (s2 & -> & Hinv2 & Hlen2).
    destruct (stopAllPlugins_clears _ s2 Hinv2 (Hstop _))
      as (s' & Hs' & Hempty & Hg & Hdead).
    exists s'. simpl. rewrite Hs'. split; [done|]. split; [done|].
    split; [done|]. rewrite Hg, Hlen2, Hlen1. simpl.
    rewrite Hperm, length_map_to_list. done.
  - destruct (Run_loop_receives stop_order devices (RunRecv None :: rest)
                s1 Hinv1) as (s2 & -> & _). done.
Qed.
End SupervisorRun.

Lemma supervised_loops_default_schedule_witness :
  ∀ l, l ∈ goroutines supervisor_br0.2 →
       loop_backoff l = defaultBackoffTime.
Proof.
  intros l Hl.
  exact (proj1 (supervised_loops_default_schedule [br0] 2 supervisor_br0
                  supervisor_br0_reachable l Hl)).
Defined.

Lemma Run_returns_with_all_stopped_witness :
  ∃ s', Run [("br0", br0)] listed_order
          ((RunRecv ∘ Some <$> [br1]) ++ RunStop :: [])
          (NewBridgeDeviceController [br0] 2, new_world)
          = (Returned None, s') ∧
        startedPlugins s'.1 = ∅ ∧
        length (goroutines s'.2) = 2%nat.
Proof.
  assert ([("br0", br0)] ≡ₚ
          map_to_list (permanentPlugins (NewBridgeDeviceController [br0] 2)))
    as Hperm by (vm_compute; reflexivity).
  assert (∀ m : gmap string (controlledDevice BridgeDevicePlugin),
            listed_order m ≡ₚ (map_to_list m).*1) as Hstop by done.
  destruct (Run_returns_with_all_stopped [br0] [br1] 2 [("br0", br0)]
              listed_order [] Hperm Hstop)
    as [(s' & Hrun & Hempty & _ & Hlen) _].
  exists s'. split; [exact Hrun|]. split; [exact Hempty|].
  rewrite Hlen. reflexivity.
Defined.

(** ** Discovery of bridges *)

Lemma GetBridgeDevicePlugins_loop (links : list Link) (n : Z)
    (ret : list BridgeDevicePlugin) :
  foldl (λ ret link,
           if is_Bridge link
           then ret ++ [NewBridgeDevicePlugin (link_Name link) n]
           else ret) ret links =
  ret ++ ((λ link, NewBridgeDevicePlugin (link_Name link) n) <$>
          filter (λ link, is_Bridge link = true) links).
Proof.
  revert ret. induction links as [|link links IH]; intros ret; simpl.
  - by rewrite app_nil_r.
  - rewrite IH, filter_cons. destruct (is_Bridge link) eqn:Hb.
    + rewrite decide_True by done. simpl. by rewrite <- app_assoc.
    + by rewrite decide_False by done.
Qed.

(** X12.  When the kernel lists its links, [GetBridgeDevicePlugins] returns
    one plugin per bridge, in the order of the list and with the bridge's
    name, and nothing for a link that is not a bridge; the supervisor built
    from them has a permanent plugin under a name exactly when a bridge of
    that name is listed.  When the listing fails, the error is returned
    with a nil slice. *)
Theorem GetBridgeDevicePlugins_bridges (links : list Link) (n : Z) :
  (∃ ps, GetBridgeDevicePlugins (inl links) n = (Some ps, None) ∧
     deviceName <$> ps =
       link_Name <$> filter (λ link, is_Bridge link = true) links ∧
     (∀ d, is_Some (permanentPlugins (NewBridgeDeviceController ps n) !! d) ↔
           ∃ link, link ∈ links ∧ is_Bridge link = true ∧ link_Name link = d) ∧
     (∀ d p, permanentPlugins (NewBridgeDeviceController ps n) !! d = Some p →
             p = NewBridgeDevicePlugin d n)) ∧
  (∀ err, GetBridgeDevicePlugins (inr err) n = (None, Some err)).
Proof.
  split; [|done].
  set (bridges := filter (λ link, is_Bridge link = true) links).
  exists ((λ link, NewBridgeDevicePlugin (link_Name link) n) <$> bridges).
  split.
  { unfold GetBridgeDevicePlugins. by rewrite GetBridgeDevicePlugins_loop. }
  assert (∀ d p,
            last (filter (λ p, GetDeviceName p = d)
                    ((λ link, NewBridgeDevicePlugin (link_Name link) n)
                       <$> bridges)) = Some p →
            p = NewBridgeDevicePlugin d n ∧
            ∃ link, link ∈ links ∧ is_Bridge link = true ∧ link_Name link = d)
    as Hlast.
  { intros d p Hp. apply last_Some in Hp as [ps' Hp].
    assert (p ∈ filter (λ p, GetDeviceName p = d)
                  ((λ link, NewBridgeDevicePlugin (link_Name link) n)
                     <$> bridges)) as Hin.
    { rewrite Hp. apply elem_of_app. right. by apply list_elem_of_singleton. }
    apply list_elem_of_filter in Hin as [Hname Hin].
    apply list_elem_of_fmap in Hin as (link & -> & Hlink).
    apply list_elem_of_filter in Hlink as [Hb Hlink].
    simpl in Hname. rewrite NewBridgeDevicePlugin_deviceName in Hname.
    subst d. split; [done|]. by exists link. }
  split; [|split].
  - rewrite <- list_fmap_compose. apply list_fmap_ext.
    intros _ link _. simpl. apply NewBridgeDevicePlugin_deviceName.
  - intros d. rewrite NewBridgeDeviceController_lookup. split.
    + intros [p Hp]. by destruct (Hlast d p Hp).
    + intros (link & Hlink & Hb & Hname).
      destruct (last _) as [p'|] eqn:Hl; [by eexists|].
      exfalso. apply last_None in Hl.
      assert (NewBridgeDevicePlugin d n ∈
              filter (λ p, GetDeviceName p = d)
                ((λ link, NewBridgeDevicePlugin (link_Name link) n)
                   <$> bridges)) as Hin.
      { apply list_elem_of_filter. split.
        - simpl. apply NewBridgeDevicePlugin_deviceName.
        - apply list_elem_of_fmap. exists link. split; [by rewrite Hname|].
          by apply list_elem_of_filter. }
      rewrite Hl in Hin. by apply elem_of_nil in Hin.
  - intros d p. rewrite NewBridgeDeviceController_lookup. intros Hp.
    by destruct (Hlast d p Hp).
Qed.

Lemma ScanForNewDevices_loop_cons (n : Z) (u : LinkUpdate)
    (evs : list scanSelect) :
  ScanForNewDevices_loop n (ScanUpdate u :: evs) =
    if is_Bridge (upd_Link u) && (upd_HeaderType u =? RTM_NEWLINK)
    then (NewBridgeDevicePlugin (link_Name (upd_Link u)) n
            :: (ScanForNewDevices_loop n evs).1,
          (ScanForNewDevices_loop n evs).2)
    else ScanForNewDevices_loop n evs.
Proof. simpl. by destruct (ScanForNewDevices_loop n evs), (_ && _). Qed.

Lemma ScanForNewDevices_loop_updates (n : Z) (updates : list LinkUpdate)
    (evs : list scanSelect) :
  ScanForNewDevices_loop n ((ScanUpdate <$> updates) ++ evs) =
    (((λ u, NewBridgeDevicePlugin (link_Name (upd_Link u)) n) <$>
      filter announces_bridge updates) ++ (ScanForNewDevices_loop n evs).1,
     (ScanForNewDevices_loop n evs).2).
Proof.
  induction updates as [|u updates IH].
  - simpl. by destruct (ScanForNewDevices_loop n evs).
  - rewrite fmap_cons, <- app_comm_cons, ScanForNewDevices_loop_cons, IH.
    rewrite filter_cons.
    destruct (is_Bridge (upd_Link u)) eqn:Hb; simpl.
    + destruct (Z.eqb_spec (upd_HeaderType u) RTM_NEWLINK) as [Ht|Ht].
      * by rewrite decide_True by done.
      * by rewrite decide_False by (by intros [_ ?]).
    + rewrite decide_False; [done|]. intros [Hb' _]. congruence.
Qed.

(** X13.  [ScanForNewDevices] sends one new plugin for each update that
    announces a bridge ([RTM_NEWLINK] on a link that is a bridge), in the
    order of the updates and under the bridge's name, and nothing for
    removals and for other links; when [stop] is selected it returns,
    whatever would follow, and [newPlugins] is closed.  When the
    subscription fails it sends nothing and closes [stop] and
    [newPlugins]. *)
Theorem ScanForNewDevices_announced (n : Z) (updates : list LinkUpdate)
    (rest : list scanSelect) (err : error) :
  (let run := ScanForNewDevices n None false
                ((ScanUpdate <$> updates) ++ ScanStop :: rest) in
   scan_sent run =
     (λ u, NewBridgeDevicePlugin (link_Name (upd_Link u)) n) <$>
       filter announces_bridge updates ∧
   scan_result run = Returned () ∧
   scan_closed_newPlugins run = true ∧ scan_closed_stop run = false) ∧
  (let run := ScanForNewDevices n (Some err) false
                ((ScanUpdate <$> updates) ++ ScanStop :: rest) in
   scan_sent run = [] ∧ scan_result run = Returned () ∧
   scan_closed_newPlugins run = true ∧ scan_closed_stop run = true).
Proof.
  split; [|done]. unfold ScanForNewDevices.
  rewrite ScanForNewDevices_loop_updates. simpl. by rewrite app_nil_r.
Qed.

Section SupervisorReceives.
Context {D : Type} `{Device D}.
Implicit Types (s : supervisor D).

(** While [Run] only receives plugins, it keeps running, no name leaves
    the map, and every plugin received has a wrapper under its name. *)
Lemma Run_loop_started (stop_order : rangeOrder D) (devices : list D) s :
  supervisor_inv s →
  ∃ s', Run_loop stop_order (RunRecv ∘ Some <$> devices) s = (Running, s') ∧
        supervisor_inv s' ∧
        (∀ name, is_Some (startedPlugins s.1 !! name) →
                 is_Some (startedPlugins s'.1 !! name)) ∧
        (∀ dev, dev ∈ devices →
                is_Some (startedPlugins s'.1 !! GetDeviceName dev)).
Proof.
  revert s. induction devices as [|dev devices IH]; intros s Hinv; simpl.
  - exists s. split; [done|]. split; [done|]. split; [done|].
    intros dev Hdev. by apply elem_of_nil in Hdev.
  - destruct (startDevice_inv (GetDeviceName dev) dev s Hinv eq_refl)
      as (s1 & Hstart & Hinv1 & _ & (cd & Hcd & _)).
    unfold startNewPlugin. rewrite Hstart.
    destruct (IH s1 Hinv1) as (s' & Hloop & Hinv' & Hkeep & Hnew).
    exists s'. split; [done|]. split; [done|].
    destruct (startDevice_shape _ _ _ _ Hstart)
      as (s0 & cd' & l & Hstop & Hmap & _).
    destruct (stopDevice_shape _ _ _ Hstop) as (Hmap0 & _).
    split.
    + intros name Hname. apply Hkeep. rewrite Hmap.
      destruct (decide (GetDeviceName dev = name)) as [<-|Hne].
      * rewrite lookup_insert_eq. by eexists.
      * by rewrite lookup_insert_ne, Hmap0, lookup_delete_ne.
    + intros dev' [->|Hdev']%elem_of_cons; [|by apply Hnew].
      apply Hkeep. by eexists.
Qed.
End SupervisorReceives.

(** X14.  A bridge that appears while the supervisor runs gets its plugin:
    after [Run] has received what [ScanForNewDevices] sends for a sequence
    of link updates, every bridge announced among them has a started
    wrapper under its name, around a plugin of that name, with a live
    restart loop. *)
Theorem Run_starts_announced_bridges (plugins : list BridgeDevicePlugin)
    (n : Z) (perm_order : list (string * BridgeDevicePlugin))
    (stop_order : rangeOrder BridgeDevicePlugin)
    (updates : list LinkUpdate) :
  perm_order ≡ₚ
    map_to_list (permanentPlugins (NewBridgeDeviceController plugins n)) →
  ∃ s', Run perm_order stop_order
          (RunRecv ∘ Some <$>
             scan_sent (ScanForNewDevices n None false
                          (ScanUpdate <$> updates)))
          (NewBridgeDeviceController plugins n, new_world)
          = (Running, s') ∧
    ∀ u, u ∈ updates → announces_bridge u →
      ∃ cd l, startedPlugins s'.1 !! link_Name (upd_Link u) = Some cd ∧
              started cd = true ∧
              deviceName (devicePlugin cd) = link_Name (upd_Link u) ∧
              l ∈ goroutines s'.2 ∧ live s'.2 l ∧
              stopChan cd = Some (loop_stop l).
Proof.
  intros Hperm.
  set (s0 := (NewBridgeDeviceController plugins n, new_world)).
  assert (supervisor_inv s0) as Hinv0 by apply NewBridgeDeviceController_inv.
  destruct (run_op_inv (OpStartPermanent perm_order) s0 Hinv0 Hperm)
    as (s1 & Hstart & Hinv1). simpl in Hstart.
  unfold Run. rewrite Hstart.
  set (sent := scan_sent _).
  destruct (Run_loop_started stop_order sent s1 Hinv1)
    as (s' & Hloop & Hinv' & _ & Hnew).
  exists s'. split; [done|]. intros u Hu Hann.
  assert (NewBridgeDevicePlugin (link_Name (upd_Link u)) n ∈ sent) as Hin.
  { unfold sent, ScanForNewDevices.
    pose proof (ScanForNewDevices_loop_updates n updates []) as Hscan.
    rewrite app_nil_r in Hscan. rewrite Hscan. simpl. rewrite app_nil_r.
    apply list_elem_of_fmap. exists u. split; [done|].
    by apply list_elem_of_filter. }
  destruct (Hnew _ Hin) as [cd Hcd]. simpl in Hcd.
  rewrite NewBridgeDevicePlugin_deviceName in Hcd.
  destruct (inv_started s' Hinv' _ cd Hcd)
    as (Hs & Hn & ch & l & Hch & Hopen & Hl & Hlch & Hldev).
  exists cd, l. split; [done|]. split; [done|]. split; [done|].
  split; [done|]. unfold live. by rewrite Hlch.
Qed.

Lemma Run_starts_announced_bridges_witness :
  ∃ s' cd,
    Run [("br0", br0)] listed_order
      (RunRecv ∘ Some <$>
         scan_sent (ScanForNewDevices 2 None false
                      (ScanUpdate <$> [update_br1])))
      (NewBridgeDeviceController [br0] 2, new_world) = (Running, s') ∧
    startedPlugins s'.1 !! "br1" = Some cd ∧ started cd = true.
Proof.
  assert ([("br0", br0)] ≡ₚ
          map_to_list (permanentPlugins (NewBridgeDeviceController [br0] 2)))
    as Hperm by (vm_compute; reflexivity).
  destruct (Run_starts_announced_bridges [br0] 2 [("br0", br0)]
              listed_order [update_br1] Hperm) as (s' & Hrun & Hall).
  destruct (Hall update_br1 ltac:(repeat constructor) ltac:(by split))
    as (cd & l & Hcd & Hs & _).
  exists s', cd. split; [exact Hrun|]. split; [exact Hcd | exact Hs].
Defined.

(** ** Bridge plugin: [Start] and the stop procedure *)

(** X15.  [Start] never panics.  Whenever it gets as far as creating the
    server, it returns with the stop procedure run: [initialized] false,
    the server stopped and [done] closed.  When it returns before that (the
    stale socket cannot be removed, or the listener cannot be bound), the
    server and [initialized] are as they were and [done] stays open. *)
Theorem Start_returns_stopped (env : startEnv) (dpi : BridgeDevicePlugin) :
  let run := BridgeDevicePlugin_Start env dpi in
  start_result run ≠ Panic ∧
  (reaches_server env →
   initialized (start_plugin run) = false ∧
   server (start_plugin run) = ServerStopped ∧
   done (start_plugin run) = ClosedChan) ∧
  (¬ reaches_server env →
   initialized (start_plugin run) = initialized dpi ∧
   server (start_plugin run) = server dpi ∧
   done (start_plugin run) = OpenChan ∧
   ∃ e, start_result run = Ret (Some e)).
Proof.
  destruct env as [st cl li wa re ec [grace answer]].
  unfold reaches_server. simpl.
  destruct cl as [| |e].
  3: { split; [done|]. split; [intros [Hcl _]; by destruct (Hcl e)|].
       intros _. simpl. repeat split. by eexists. }
  all: destruct li as [e|].
  1, 3: split; [done|]; split; [by intros [_ ?]|];
        intros _; simpl; repeat split; by eexists.
  all: split; [|split; [intros _|intros Hn; destruct Hn; by split]];
       unfold BridgeDevicePlugin_Start, Start_serving; simpl;
       destruct wa, re, grace, answer; simpl; try done.
Qed.

Ltac not_registers H :=
  let Hcl := fresh in
  exfalso; destruct H as [[Hcl ?] [? ?]];
  first [congruence | by eapply Hcl].

(** X16.  [Start] returns nil exactly when every step succeeded and the
    first value to arrive on [errChan] is nil; and it sets [initialized]
    to true exactly when it got through the registration, after which the
    stop procedure sets it back to false before [Start] returns. *)
Theorem Start_result (env : startEnv) (dpi : BridgeDevicePlugin) :
  let run := BridgeDevicePlugin_Start env dpi in
  (start_result run = Ret None ↔ registers env ∧ errChan_first env = None) ∧
  (EvSetInitialized true ∈ start_events run ↔ registers env) ∧
  (registers env →
   ∃ effects,
     last (start_events run) = Some (EvStopDevicePlugin effects) ∧
     SetInitialized false ∈ effects).
Proof.
  destruct env as [st cl li wa re ec [grace answer]].
  unfold registers, reaches_server. simpl.
  destruct cl as [| |e0].
  3: { unfold BridgeDevicePlugin_Start. simpl. split; [|split].
       - split; [discriminate|]. intros [Hr _]. not_registers Hr.
       - rewrite list_elem_of_singleton. split; [discriminate|].
         intros Hr. not_registers Hr.
       - intros Hr. not_registers Hr. }
  all: destruct li as [e1|].
  1, 3: unfold BridgeDevicePlugin_Start; simpl; (split; [|split]);
        [ split; [discriminate|]; intros [Hr _]; not_registers Hr
        | split; [|intros Hr; not_registers Hr];
          intros Hin; repeat (apply elem_of_cons in Hin as [Hin|Hin];
                              [discriminate|]); by apply elem_of_nil in Hin
        | intros Hr; not_registers Hr ].
  all: destruct wa as [e2|].
  1, 3: unfold BridgeDevicePlugin_Start, Start_serving; simpl;
        (split; [|split]);
        [ split; [destruct grace, answer; discriminate|];
          intros [Hr _]; not_registers Hr
        | split; [|intros Hr; not_registers Hr];
          intros Hin; repeat (apply elem_of_cons in Hin as [Hin|Hin];
                              [discriminate|]); by apply elem_of_nil in Hin
        | intros Hr; not_registers Hr ].
  all: destruct re as [e3|].
  1, 3: unfold BridgeDevicePlugin_Start, Start_serving; simpl;
        (split; [|split]);
        [ split; [destruct grace, answer; discriminate|];
          intros [Hr _]; not_registers Hr
        | split; [|intros Hr; not_registers Hr];
          intros Hin; repeat (apply elem_of_cons in Hin as [Hin|Hin];
                              [discriminate|]); by apply elem_of_nil in Hin
        | intros Hr; not_registers Hr ].
  all: unfold BridgeDevicePlugin_Start, Start_serving; simpl;
       (split; [|split]).
  all: try (split; [intros _; by repeat split|intros _; repeat constructor]).
  all: try (intros _; eexists; split; [reflexivity|];
            destruct grace, answer; vm_compute; repeat constructor).
  all: destruct grace, answer, ec; simpl; split;
       first [ discriminate | by intros [_ ?] | by intros [= ->]
             | intros _; by repeat split | idtac ].
Qed.

Lemma Start_returns_stopped_witness :
  initialized (start_plugin (BridgeDevicePlugin_Start start_all_ok br0))
    = false ∧
  done (start_plugin (BridgeDevicePlugin_Start start_all_ok br0))
    = ClosedChan.
Proof.
  destruct (Start_returns_stopped start_all_ok br0) as (_ & Hstop & _).
  assert (reaches_server start_all_ok) as Hreach by (by split).
  destruct (Hstop Hreach) as (Hinit & _ & Hdone).
  split; [exact Hinit | exact Hdone].
Defined.

Lemma Start_result_witness :
  start_result (BridgeDevicePlugin_Start start_all_ok br0) = Ret None.
Proof.
  destruct (Start_result start_all_ok br0) as ([_ Hnil] & _).
  apply Hnil. by repeat split.
Defined.

(** X17.  On a plugin whose server exists and whose [done] channel has been
    made, the stop procedure does not panic and returns the error of the
    removal of the socket, a socket that is already gone being no error;
    it leaves [done] closed, and run again it closes nothing a second time.
    On a plugin without server it panics at [server.Stop()], and the
    deferred call closes [done] all the same. *)
Theorem stopDevicePlugin_result (env env' : stopEnv) (dpi : BridgeDevicePlugin) :
  done dpi ≠ NilChan →
  (server dpi ≠ NoServer →
   let run := stopDevicePlugin env dpi in
   let again := stopDevicePlugin env' (stop_plugin run) in
   stop_result run = Ret (cleanup_error (remove_answer env)) ∧
   done (stop_plugin run) = ClosedChan ∧
   stop_result again = Ret (cleanup_error (remove_answer env')) ∧
   (CloseDone ∉ stop_effects again) ∧
   done (stop_plugin again) = ClosedChan) ∧
  (server dpi = NoServer →
   let run := stopDevicePlugin env dpi in
   stop_result run = Panic ∧ done (stop_plugin run) = ClosedChan ∧
   (ServerStop ∉ stop_effects run)).
Proof.
  destruct dpi as [ds srv sp st dn rn dne ini dereg].
  destruct env as [grace answer], env' as [grace' answer']. simpl.
  intros Hdone. split.
  - intros Hsrv.
    destruct srv; [done| |]; destruct dne; try done;
      destruct dereg, grace, answer, grace', answer'; vm_compute;
      repeat split; try done;
      intros Hin%list_elem_of_In; simpl in Hin; intuition discriminate.
  - intros ->.
    destruct dne; try done; destruct dereg, grace; vm_compute;
      repeat split; try done;
      intros Hin%list_elem_of_In; simpl in Hin; intuition discriminate.
Qed.

Lemma stopDevicePlugin_result_witness :
  stop_result
    (stopDevicePlugin
       {| deregisters_in_grace := true; remove_answer := RemoveNotExist |}
       (started_plugin "br0" 2)) = Ret None.
Proof.
  assert (done (started_plugin "br0" 2) ≠ NilChan) as Hdone
    by (vm_compute; discriminate).
  assert (server (started_plugin "br0" 2) ≠ NoServer) as Hsrv
    by (vm_compute; discriminate).
  destruct (stopDevicePlugin_result
              {| deregisters_in_grace := true; remove_answer := RemoveNotExist |}
              {| deregisters_in_grace := true; remove_answer := RemoveNotExist |}
              (started_plugin "br0" 2) Hdone) as [Hstop _].
  exact (proj1 (Hstop Hsrv)).
Defined.

(** ** Bridge plugin: registration and dialling *)

Lemma slot_loop_fields (dpi : BridgeDevicePlugin) (ixs : list Z) :
  let dpi' :=
    foldl (λ dpi i,
             let deviceId := deviceName dpi +:+ Itoa i in
             set_devs dpi
               (devs dpi ++ [{| ID := deviceId; Health := Healthy |}]))
          dpi ixs in
  socketPath dpi' = socketPath dpi ∧ resourceName dpi' = resourceName dpi ∧
  initialized dpi' = initialized dpi.
Proof.
  revert dpi. induction ixs as [|i ixs IH]; intros dpi; simpl.
  - done.
  - destruct (IH (set_devs dpi (devs dpi ++ [slot (deviceName dpi) i])))
      as (Hsp & Hrn & Hini).
    unfold slot in *. simpl in *. by rewrite Hsp, Hrn, Hini.
Qed.

Lemma NewBridgeDevicePlugin_fields (d : string) (n : Z) :
  socketPath (NewBridgeDevicePlugin d n) = SocketPath d ∧
  resourceName (NewBridgeDevicePlugin d n) = DeviceNamespace +:+ "/" +:+ d ∧
  initialized (NewBridgeDevicePlugin d n) = false.
Proof.
  exact (slot_loop_fields
           {| devs := []; server := NoServer; socketPath := SocketPath d;
              stop := NilChan; deviceName := d;
              resourceName := DeviceNamespace +:+ "/" +:+ d;
              done := NilChan; initialized := false;
              deregistered := NilChan |} (seqZ 0 n)).
Qed.

Lemma drop_trailing_empty_snoc (elems : list string) (f : string) :
  f ≠ "" → drop_trailing_empty (elems ++ [f]) = elems ++ [f].
Proof.
  intros Hf. induction elems as [|e elems IH]; simpl.
  - by rewrite decide_False.
  - rewrite IH. by destruct elems.
Qed.

(** The base name of a file in the plugin directory is the file. *)
Lemma path_Base_in_plugin_dir (f : string) :
  has_char is_slash f = false → f ≠ "" →
  path_Base (DevicePluginPath +:+ f) = f.
Proof.
  intros Hslash Hf. unfold path_Base.
  change (DevicePluginPath +:+ f)
    with ("/var/lib/kubelet/device-plugins" +:+ "/" +:+ f).
  rewrite path_elements_app, (path_elements_slash_free _ Hslash).
  rewrite drop_trailing_empty_snoc, last_snoc by done.
  by rewrite decide_False.
Qed.

(** X18.  The registration request of the plugin built for a valid device
    name carries the API version, the resource name
    [bridge.network.kubevirt.io/<name>] and, as endpoint, the base name
    [kubevirt-<name>.sock] of the plugin's socket, which joined with the
    plugin directory gives the socket path back; a request is made only
    when the kubelet's socket could be dialled. *)
Theorem register_request_fields (d : string) (n : Z)
    (NewClient_err Register_err : option error) (steps : list connStep)
    (req : RegisterRequest) :
  valid_device_name d = true →
  register_request
    (register (NewBridgeDevicePlugin d n) NewClient_err steps Register_err)
    = Some req →
  reg_Version req = "v1beta1" ∧
  reg_Endpoint req = "kubevirt-" +:+ d +:+ ".sock" ∧
  reg_ResourceName req = "bridge.network.kubevirt.io/" +:+ d ∧
  filepath_Join [DevicePluginPath; reg_Endpoint req] =
    socketPath (NewBridgeDevicePlugin d n) ∧
  NewClient_err = None.
Proof.
  intros Hd%valid_device_name_slash_free Hreq.
  destruct (NewBridgeDevicePlugin_fields d n) as (Hsp & Hrn & _).
  unfold register in Hreq.
  destruct (conn_result (gRPCConnect KubeletSocket NewClient_err steps))
    as [[e|]| |] eqn:Hconn; cbn [register_request] in Hreq; try done.
  injection Hreq as <-. cbn [reg_Version reg_Endpoint reg_ResourceName].
  rewrite Hsp, Hrn, (SocketPath_slash_free d Hd).
  rewrite path_Base_in_plugin_dir;
    [|by apply socket_file_slash_free|by rewrite socket_file_head].
  split; [done|]. split; [done|]. split; [done|]. split.
  - exact (SocketPath_slash_free d Hd).
  - destruct NewClient_err; [discriminate Hconn | done].
Qed.

Lemma register_request_fields_witness :
  ∀ req,
    register_request
      (register (NewBridgeDevicePlugin "br0" 2) None
         [{| conn_state := Idle; conn_changed := true |};
          {| conn_state := Ready; conn_changed := false |}] None) = Some req →
    reg_Endpoint req = "kubevirt-br0.sock" ∧
    reg_ResourceName req = "bridge.network.kubevirt.io/br0".
Proof.
  intros req Hreq.
  destruct (register_request_fields "br0" 2 None None _ req eq_refl Hreq)
    as (_ & Hend & Hres & _).
  split; [exact Hend | exact Hres].
Defined.

Lemma gRPCConnect_loop_step (path : string) (step : connStep)
    (steps : list connStep) :
  conn_state step ≠ Ready →
  ∃ pre, (ConnClose ∉ pre) ∧
    gRPCConnect_loop path (step :: steps) =
      if conn_changed step then
        {| conn_events := pre ++ conn_events (gRPCConnect_loop path steps);
           conn_result := conn_result (gRPCConnect_loop path steps) |}
      else
        {| conn_events := pre ++ [ConnClose];
           conn_result :=
             Returned (Some ("Failed dial context at " +:+ path
                             +:+ ": context deadline exceeded")) |}.
Proof.
  intros Hstate. simpl.
  destruct (conn_state step); try done.
  - exists [ConnConnect]. split; [|done].
    by intros [|?%elem_of_nil]%elem_of_cons.
  - exists []. split; [apply not_elem_of_nil | done].
  - exists []. split; [apply not_elem_of_nil | done].
  - exists []. split; [apply not_elem_of_nil | done].
Qed.

Lemma gRPCConnect_loop_result (path : string) (steps : list connStep) :
  let run := gRPCConnect_loop path steps in
  match conn_result run with
  | Returned None =>
      (ConnClose ∉ conn_events run) ∧
      ∃ step, step ∈ steps ∧ conn_state step = Ready
  | Returned (Some _) =>
      (∃ evs, conn_events run = evs ++ [ConnClose] ∧ ConnClose ∉ evs) ∧
      ∃ step, step ∈ steps ∧ conn_state step ≠ Ready ∧
              conn_changed step = false
  | Running => ConnClose ∉ conn_events run
  | Panicked => False
  end.
Proof.
  induction steps as [|step steps IH]; [apply not_elem_of_nil|].
  assert (conn_state step = Ready ∨ conn_state step ≠ Ready)
    as [Hready|Hready] by (destruct (conn_state step); by (left + right)).
  - simpl. rewrite Hready. simpl. split; [apply not_elem_of_nil|].
    exists step. split; [apply list_elem_of_here | done].
  - destruct (gRPCConnect_loop_step path step steps Hready)
      as (pre & Hpre & ->).
    destruct (conn_changed step) eqn:Hch; simpl.
    + simpl in IH.
      destruct (conn_result (gRPCConnect_loop path steps)) as [[e|]| |];
        try done.
      * destruct IH as [(evs & -> & Hevs) (st & Hst & Hns & Hnc)]. split.
        -- exists (pre ++ evs). split; [by rewrite app_assoc|].
           by intros [|]%elem_of_app.
        -- exists st. split; [by apply list_elem_of_further | done].
      * destruct IH as [Hevs (st & Hst & Hr)]. split.
        -- by intros [|]%elem_of_app.
        -- exists st. split; [by apply list_elem_of_further | done].
      * by intros [|]%elem_of_app.
    + split; [by exists pre|].
      exists step. split; [apply list_elem_of_here | done].
Qed.

(** X19.  Whenever [waitForGRPCServer] returns after dialling, it has
    closed the connection, once and as its last action: on success after
    seeing the connection ready, on failure after a state failed to change
    before the deadline.  It returns nil only if the connection was seen
    ready. *)
Theorem waitForGRPCServer_closes_connection (path : string)
    (steps : list connStep) (r : option error) :
  let run := waitForGRPCServer path None steps in
  conn_result run = Returned r →
  (∃ evs, conn_events run = evs ++ [ConnClose] ∧ ConnClose ∉ evs) ∧
  (r = None → ∃ step, step ∈ steps ∧ conn_state step = Ready) ∧
  (r ≠ None → ∃ step, step ∈ steps ∧ conn_state step ≠ Ready ∧
                      conn_changed step = false).
Proof.
  unfold waitForGRPCServer, gRPCConnect.
  pose proof (gRPCConnect_loop_result path steps) as Hloop. simpl in Hloop.
  destruct (conn_result (gRPCConnect_loop path steps))
    as [[e|]| |] eqn:Hres; simpl.
  - rewrite Hres. intros [= <-]. destruct Hloop as [Hclose Hstep].
    split; [done|]. split; [done|]. by intros _.
  - intros [= <-]. destruct Hloop as [Hclose Hstep].
    split; [by eexists|]. split; [by intros _ | done].
  - done.
  - by rewrite Hres.
Qed.

Lemma waitForGRPCServer_closes_connection_witness :
  ∃ evs,
    conn_events
      (waitForGRPCServer "/var/lib/kubelet/device-plugins/kubevirt-br0.sock"
         None
         [{| conn_state := Idle; conn_changed := true |};
          {| conn_state := Connecting; conn_changed := true |};
          {| conn_state := Ready; conn_changed := false |}])
      = evs ++ [ConnClose] ∧ ConnClose ∉ evs.
Proof.
  exact (proj1 (waitForGRPCServer_closes_connection
                  "/var/lib/kubelet/device-plugins/kubevirt-br0.sock"
                  [{| conn_state := Idle; conn_changed := true |};
                   {| conn_state := Connecting; conn_changed := true |};
                   {| conn_state := Ready; conn_changed := false |}]
                  None eq_refl)).
Defined.

(** ** Bridge plugin: the health loop *)

(** The test [op&fsnotify.Remove == fsnotify.Remove] reads bit 2. *)
Lemma fsnotify_Remove_bit (op : Z) :
  (Z.land op fsnotify_Remove =? fsnotify_Remove) = Z.testbit op 2.
Proof.
  unfold fsnotify_Remove. change 4 with (2 ^ 2).
  destruct (Z.testbit op 2) eqn:Hbit.
  - apply Z.eqb_eq. apply Z.bits_inj'. intros n Hn.
    rewrite Z.land_spec. destruct (decide (n = 2)) as [->|Hne].
    + by rewrite Hbit.
    + rewrite (Z.pow2_bits_false 2 n) by done. apply andb_false_r.
  - apply Z.eqb_neq. intros Heq.
    apply (f_equal (λ z, Z.testbit z 2)) in Heq.
    rewrite Z.land_spec, Hbit in Heq. by vm_compute in Heq.
Qed.

Lemma hc_returns_ends (dpi : BridgeDevicePlugin) (ev : hcSelect) :
  hc_returns dpi ev = true ↔ ends_health_loop dpi ev.
Proof.
  unfold ends_health_loop. destruct ev as [|name s|name op|e]; simpl.
  - split; [by left | done].
  - split; [done | by intros [|(op & ? & _)]].
  - rewrite fsnotify_Remove_bit, andb_true_iff, bool_decide_eq_true. split.
    + intros [-> Hbit]. right. by exists op.
    + intros [|(op' & [= -> ->] & Hbit)]; done.
  - split; [done | by intros [|(op & ? & _)]].
Qed.

Lemma healthCheck_loop_result (dpi : BridgeDevicePlugin) (evs : list hcSelect) :
  hc_result (healthCheck_loop dpi evs) =
    if existsb (hc_returns dpi) evs then Returned None else Running.
Proof.
  induction evs as [|ev evs IH]; [done|].
  destruct ev as [|name s|name op|e]; simpl; try done.
  - by destruct (decide (name = deviceName dpi)).
  - by destruct (bool_decide (name = socketPath dpi) && _).
Qed.

Lemma healthCheck_loop_stops (dpi : BridgeDevicePlugin)
    (pre rest : list hcSelect) (ev : hcSelect) :
  hc_returns dpi ev = true →
  hc_published (healthCheck_loop dpi (pre ++ ev :: rest)) =
    hc_published (healthCheck_loop dpi pre).
Proof.
  intros Hev. induction pre as [|ev' pre IH]; simpl.
  - destruct ev as [|name s|name op|e]; simpl in *; try done.
    by rewrite Hev.
  - destruct ev' as [|name s|name op|e]; simpl; try done.
    + destruct (decide (name = deviceName dpi)); simpl; by rewrite IH.
    + by destruct (bool_decide (name = socketPath dpi) && _).
Qed.

(** X20.  Once set up, with the bridge found or absent, the health loop
    never returns an error: it returns nil exactly when it receives the
    stop signal or a file-system event on its own socket whose operation
    includes [Remove] (whatever other bits are set), and it runs on
    otherwise; events on other files, watcher errors and link updates do
    not end it.  Nothing more is published once it has returned. *)
Theorem healthCheck_returns (dpi : BridgeDevicePlugin) (setup : hcSetup)
    (link : linkByName) (evs : list hcSelect) :
  setup_ok setup →
  (∀ e, link ≠ LinkOtherError e) →
  (hc_result (healthCheck dpi setup link evs) = Returned None ↔
   ∃ ev, ev ∈ evs ∧ ends_health_loop dpi ev) ∧
  (hc_result (healthCheck dpi setup link evs) = Running ↔
   ¬ ∃ ev, ev ∈ evs ∧ ends_health_loop dpi ev) ∧
  (∀ ev rest, ends_health_loop dpi ev →
     hc_published (healthCheck dpi setup link (evs ++ ev :: rest)) =
     hc_published (healthCheck dpi setup link evs)).
Proof.
  intros (H1 & H2 & H3 & H4 & H5) Hlink.
  assert (hc_result (healthCheck dpi setup link evs) =
          hc_result (healthCheck_loop dpi evs)) as ->.
  { unfold healthCheck. rewrite H1, H2, H3, H4, H5.
    destruct link as [s|e|e]; [done..|]. by destruct (Hlink e). }
  rewrite healthCheck_loop_result.
  assert (existsb (hc_returns dpi) evs = true ↔
          ∃ ev, ev ∈ evs ∧ ends_health_loop dpi ev) as Hex.
  { rewrite existsb_exists. split.
    - intros (ev & Hin%list_elem_of_In & Hev%hc_returns_ends). by exists ev.
    - intros (ev & Hin%list_elem_of_In & Hev%hc_returns_ends). by exists ev. }
  split; [|split].
  - rewrite <- Hex. by destruct (existsb _ _).
  - rewrite <- Hex. by destruct (existsb _ _).
  - intros ev rest Hev%hc_returns_ends.
    unfold healthCheck. rewrite H1, H2, H3, H4, H5.
    destruct link as [s|e|e]; simpl; [| |done];
      by rewrite (healthCheck_loop_stops dpi evs rest ev Hev).
Qed.

Lemma healthCheck_returns_witness :
  hc_result
    (healthCheck br0 setup_without_errors (LinkFound OperUp)
       [HcFsEvent "/var/lib/kubelet/device-plugins/kubevirt-br1.sock" 4;
        HcWatcherError "overflow";
        HcFsEvent "/var/lib/kubelet/device-plugins/kubevirt-br0.sock" 6])
    = Returned None.
Proof.
  assert (setup_ok setup_without_errors) as Hsetup by (by repeat split).
  destruct (healthCheck_returns br0 setup_without_errors (LinkFound OperUp)
              [HcFsEvent "/var/lib/kubelet/device-plugins/kubevirt-br1.sock" 4;
               HcWatcherError "overflow";
               HcFsEvent "/var/lib/kubelet/device-plugins/kubevirt-br0.sock" 6]
              Hsetup ltac:(discriminate)) as ([_ Hret] & _).
  apply Hret.
  exists (HcFsEvent "/var/lib/kubelet/device-plugins/kubevirt-br0.sock" 6).
  split; [do 2 apply list_elem_of_further; apply list_elem_of_here|].
  right. exists 6. split; reflexivity.
Defined.

(** X21.  The health loop returns an error exactly when setting it up
    fails or the bridge cannot be looked up for a reason other than its
    absence; it then publishes nothing, and it has not entered its loop.  In
    every other case its first publication is made before any event is
    received. *)
Theorem healthCheck_setup_failure (dpi : BridgeDevicePlugin)
    (setup : hcSetup) (link : linkByName) (evs : list hcSelect) :
  ((∃ e, hc_result (healthCheck dpi setup link evs) = Returned (Some e)) ↔
   ¬ setup_ok setup ∨ ∃ e, link = LinkOtherError e) ∧
  (¬ setup_ok setup ∨ (∃ e, link = LinkOtherError e) →
   hc_published (healthCheck dpi setup link evs) = []) ∧
  (setup_ok setup → (∀ e, link ≠ LinkOtherError e) →
   ∃ h, hc_published (healthCheck dpi setup link []) = [h]).
Proof.
  destruct setup as [e1 e2 e3 e4 e5]. unfold setup_ok, healthCheck. simpl.
  assert (∀ e, hc_result (healthCheck_loop dpi evs) ≠ Returned (Some e))
    as Hloop.
  { intros e. rewrite healthCheck_loop_result. by destruct (existsb _ _). }
  destruct e1 as [e1|];
    [split; [split; [intros _; left; by intros [? _] | by eexists]|];
     split; [done | by intros [? _]]|].
  destruct e2 as [e2|];
    [split; [split; [intros _; left; by intros (_ & ? & _) | by eexists]|];
     split; [done | by intros (_ & ? & _)]|].
  destruct e3 as [e3|];
    [split; [split; [intros _; left; by intros (_ & _ & ? & _) | by eexists]|];
     split; [done | by intros (_ & _ & ? & _)]|].
  destruct e4 as [e4|];
    [split; [split; [intros _; left; by intros (_ & _ & _ & ? & _)
                    | by eexists]|];
     split; [done | by intros (_ & _ & _ & ? & _)]|].
  destruct e5 as [e5|];
    [split; [split; [intros _; left; by intros (_ & _ & _ & _ & ?)
                    | by eexists]|];
     split; [done | by intros (_ & _ & _ & _ & ?)]|].
  destruct link as [s|e|e]; simpl.
  - split; [split|split].
    + intros [e He]. by destruct (Hloop e).
    + intros [Hn|[e ?]]; [|done]. by destruct Hn.
    + intros [Hn|[e ?]]; [|done]. by destruct Hn.
    + intros _ _. by eexists.
  - split; [split|split].
    + intros [e' He]. by destruct (Hloop e').
    + intros [Hn|[e' ?]]; [|done]. by destruct Hn.
    + intros [Hn|[e' ?]]; [|done]. by destruct Hn.
    + intros _ _. by eexists.
  - split; [split|split].
    + intros _. right. by exists e.
    + intros _. by eexists.
    + done.
    + intros _ Hne. by destruct (Hne e).
Qed.

Lemma healthCheck_setup_failure_witness :
  hc_published
    (healthCheck br0
       {| NewHandle_err := None; LinkSubscribe_err := None;
          NewWatcher_err := None; watcher_Add_err := None;
          Stat_err := Some "no such file or directory" |}
       (LinkFound OperUp) [HcLinkUpdate "br0" OperDown]) = [].
Proof.
  destruct (healthCheck_setup_failure br0
              {| NewHandle_err := None; LinkSubscribe_err := None;
                 NewWatcher_err := None; watcher_Add_err := None;
                 Stat_err := Some "no such file or directory" |}
              (LinkFound OperUp) [HcLinkUpdate "br0" OperDown])
    as (_ & Hnone & _).
  apply Hnone. left. intros (_ & _ & _ & _ & Hstat). discriminate Hstat.
Defined.

(** ** Bridge plugin: the list-and-watch stream *)

Lemma ListAndWatch_loop_slots (dpi : BridgeDevicePlugin) (evs : list lawSelect) :
  let run := ListAndWatch_loop dpi evs in
  ID <$> devs (law_plugin run) = ID <$> devs dpi ∧
  ∀ m, m ∈ law_sent run →
       m = [] ∨ (ID <$> m = ID <$> devs dpi ∧
                 ∃ h, Forall (λ dev, Health dev = h) m).
Proof.
  revert dpi. induction evs as [|ev evs IH]; intros dpi; simpl.
  - split; [done|]. intros m Hm. by apply elem_of_nil in Hm.
  - assert (∀ h, ID <$> (set_Health h <$> devs dpi) = ID <$> devs dpi)
      as Hids.
    { intros h. rewrite <- list_fmap_compose. by apply list_fmap_ext. }
    destruct ev as [h| |]; simpl.
    + destruct (IH (set_devs dpi (set_Health (dh_Health h) <$> devs dpi)))
        as [Hfinal Hsent]. simpl in *. rewrite Hids in *.
      split; [done|].
      intros m [->|Hm]%elem_of_cons; [|by apply Hsent].
      right. split; [done|]. exists (dh_Health h).
      apply Forall_fmap, Forall_true. done.
    + destruct (close_chanState (deregistered dpi)); simpl;
        (split; [done|]);
        intros m Hm%list_elem_of_singleton; by left.
    + destruct (close_chanState (deregistered dpi)); simpl;
        (split; [done|]);
        intros m Hm%list_elem_of_singleton; by left.
Qed.

(** X22.  [ListAndWatch] never adds, drops, renames or reorders a slot:
    every message it sends is either the empty list of the deregistration
    or carries the IDs of the plugin's slots in their order, and after the
    first message all slots of a message carry one health value; the
    plugin's own slots keep their IDs. *)
Theorem ListAndWatch_keeps_slots (dpi : BridgeDevicePlugin)
    (evs : list lawSelect) :
  let run := ListAndWatch dpi evs in
  ID <$> devs (law_plugin run) = ID <$> devs dpi ∧
  head (law_sent run) = Some (devs dpi) ∧
  ∀ m, m ∈ law_sent run →
       m = [] ∨ (ID <$> m = ID <$> devs dpi ∧
                 (m = devs dpi ∨ ∃ h, Forall (λ dev, Health dev = h) m)).
Proof.
  destruct (ListAndWatch_loop_slots dpi evs) as [Hfinal Hsent].
  unfold ListAndWatch. simpl. split; [done|]. split; [done|].
  intros m [->|Hm]%elem_of_cons.
  - right. split; [done|]. by left.
  - destruct (Hsent m Hm) as [->|[Hids Hh]]; [by left|].
    right. split; [done|]. by right.
Qed.

Lemma ListAndWatch_loop_health_cons (dpi : BridgeDevicePlugin)
    (h : deviceHealth) (evs : list lawSelect) :
  ListAndWatch_loop dpi (RecvHealth h :: evs) =
    let dpi' := set_devs dpi (set_Health (dh_Health h) <$> devs dpi) in
    {| law_sent := devs dpi' :: law_sent (ListAndWatch_loop dpi' evs);
       law_plugin := law_plugin (ListAndWatch_loop dpi' evs);
       law_result := law_result (ListAndWatch_loop dpi' evs) |}.
Proof. reflexivity. Qed.

Lemma ListAndWatch_loop_healths (dpi : BridgeDevicePlugin)
    (healths : list deviceHealth) (evs : list lawSelect) :
  ∃ dpi',
    deregistered dpi' = deregistered dpi ∧
    law_sent (ListAndWatch_loop dpi ((RecvHealth <$> healths) ++ evs)) =
      law_sent (ListAndWatch_loop dpi (RecvHealth <$> healths)) ++
      law_sent (ListAndWatch_loop dpi' evs) ∧
    law_result (ListAndWatch_loop dpi ((RecvHealth <$> healths) ++ evs)) =
      law_result (ListAndWatch_loop dpi' evs) ∧
    law_plugin (ListAndWatch_loop dpi ((RecvHealth <$> healths) ++ evs)) =
      law_plugin (ListAndWatch_loop dpi' evs) ∧
    length (law_sent (ListAndWatch_loop dpi (RecvHealth <$> healths))) =
      length healths.
Proof.
  revert dpi. induction healths as [|h healths IH]; intros dpi.
  - by exists dpi.
  - destruct (IH (set_devs dpi (set_Health (dh_Health h) <$> devs dpi)))
      as (dpi' & Hd & Hs & Hr & Hp & Hl).
    exists dpi'. rewrite fmap_cons, <- app_comm_cons.
    rewrite !ListAndWatch_loop_health_cons.
    cbn [law_sent law_result law_plugin]. rewrite Hs, Hr, Hp.
    split; [done|]. split; [done|]. split; [done|]. split; [done|].
    simpl. by rewrite Hl.
Qed.

(** X23.  When the stop signal or [done] is selected, [ListAndWatch] sends
    the empty list as its last message, whatever would follow; if
    [deregistered] is open it closes it and returns nil, having sent the
    initial list, one list per health received and the empty list.  If
    [deregistered] is nil or closed already (a second stream in the same
    run of the plugin), it panics after sending the empty list. *)
Theorem ListAndWatch_deregisters (dpi : BridgeDevicePlugin)
    (healths : list deviceHealth) (ev : lawSelect) (rest : list lawSelect) :
  is_shutdown ev →
  let run := ListAndWatch dpi ((RecvHealth <$> healths) ++ ev :: rest) in
  last (law_sent run) = Some [] ∧
  length (law_sent run) = (length healths + 2)%nat ∧
  (deregistered dpi = OpenChan →
   law_result run = Returned None ∧
   deregistered (law_plugin run) = ClosedChan) ∧
  (deregistered dpi ≠ OpenChan → law_result run = Panicked).
Proof.
  intros Hev. unfold ListAndWatch. simpl.
  destruct (ListAndWatch_loop_healths dpi healths (ev :: rest))
    as (dpi' & Hd & -> & -> & -> & Hlen).
  assert (law_sent (ListAndWatch_loop dpi' (ev :: rest)) = [[]]) as ->.
  { destruct Hev as [-> | ->]; simpl;
      by destruct (close_chanState (deregistered dpi')). }
  split; [by rewrite app_comm_cons, last_snoc|].
  split; [simpl; rewrite length_app, Hlen; simpl; lia|].
  rewrite <- Hd.
  split; [intros Hopen | intros Hnopen];
    destruct Hev as [-> | ->]; simpl;
    destruct (deregistered dpi'); simpl; done.
Qed.

Lemma ListAndWatch_deregisters_witness :
  last (law_sent
          (ListAndWatch (started_plugin "br0" 2)
             ((RecvHealth <$> [{| dh_DevId := ""; dh_Health := Unhealthy |}])
              ++ RecvDone :: [RecvStop]))) = Some [].
Proof.
  exact (proj1 (ListAndWatch_deregisters (started_plugin "br0" 2)
                  [{| dh_DevId := ""; dh_Health := Unhealthy |}]
                  RecvDone [RecvStop] (or_intror eq_refl))).
Defined.

(** ** Bridge plugin: distinct slots *)

Lemma Itoa_inj : Inj (=) (=) Itoa.
Proof.
  intros i j Hij. unfold Itoa in Hij.
  apply DecimalZ.to_int_inj.
  pose proof (NilEmpty.isi (Z.to_int i)) as Hi.
  pose proof (NilEmpty.isi (Z.to_int j)) as Hj.
  rewrite Hij in Hi. congruence.
Qed.

(** X24.  The slots of a plugin have pairwise distinct IDs, and a plugin
    built with a negative number of slots has none. *)
Theorem NewBridgeDevicePlugin_distinct_IDs (d : string) (n : Z) :
  NoDup (ID <$> devs (NewBridgeDevicePlugin d n)) ∧
  (n ≤ 0 → devs (NewBridgeDevicePlugin d n) = []).
Proof.
  rewrite NewBridgeDevicePlugin_devs. split.
  - rewrite <- list_fmap_compose. apply NoDup_fmap_2; [|apply NoDup_seqZ].
    intros i j Hij. simpl in Hij.
    by apply String.app_inj, Itoa_inj in Hij.
  - intros Hn. assert (seqZ 0 n = []) as ->; [|done].
    apply length_zero_iff_nil. rewrite length_seqZ. lia.
Qed.

Lemma NewBridgeDevicePlugin_distinct_IDs_witness :
  devs (NewBridgeDevicePlugin "br0" (-1)) = [].
Proof.
  exact (proj2 (NewBridgeDevicePlugin_distinct_IDs "br0" (-1)) ltac:(lia)).
Defined.

Lemma ListAndWatch_keeps_slots_witness :
  ∀ m, m ∈ law_sent (ListAndWatch br0
                       [RecvHealth {| dh_DevId := ""; dh_Health := Unhealthy |}])
       → m = [] ∨ ID <$> m = ["br00"; "br01"].
Proof.
  intros m Hm.
  destruct (ListAndWatch_keeps_slots br0
              [RecvHealth {| dh_DevId := ""; dh_Health := Unhealthy |}])
    as (_ & _ & Hall).
  destruct (Hall m Hm) as [->|[Hids _]]; [by left|].
  right. exact Hids.
Defined.

Lemma GetBridgeDevicePlugins_bridges_witness :
  ∃ ps,
    GetBridgeDevicePlugins
      (inl [{| link_Name := "lo"; link_Type := OtherLink "device";
               link_OperState := OperUnknown |};
            {| link_Name := "br0"; link_Type := BridgeLink;
               link_OperState := OperUp |}]) 2 = (Some ps, None) ∧
    deviceName <$> ps = ["br0"].
Proof.
  destruct (GetBridgeDevicePlugins_bridges
              [{| link_Name := "lo"; link_Type := OtherLink "device";
                  link_OperState := OperUnknown |};
               {| link_Name := "br0"; link_Type := BridgeLink;
                  link_OperState := OperUp |}] 2)
    as [(ps & Hps & Hnames & _) _].
  exists ps. split; [exact Hps | exact Hnames].
Defined.

(** ** The plugin under its wrapper *)

Lemma Start_registers_result (env : startEnv) (dpi : BridgeDevicePlugin) :
  registers env →
  start_result (BridgeDevicePlugin_Start env dpi) = Ret (errChan_first env).
Proof.
  destruct env as [st cl li wa re ec [grace answer]].
  intros [[Hcl Hli] [Hwa Hre]]. simpl in *. subst.
  unfold BridgeDevicePlugin_Start, Start_serving. simpl.
  destruct cl as [| |e]; [| |by destruct (Hcl e)];
    by destruct grace, answer.
Qed.

(** X25.  When the kubelet restarts and removes the plugin's socket, the
    plugin comes back after the first wait of the schedule: the health loop
    of a registered plugin returns nil on the removal, so [Start] returns
    nil, and the restart loop, whatever failures came before, waits the
    first entry of its schedule before it starts the plugin again. *)
Theorem socket_removal_restarts_plugin (bo : list Duration)
    (pre : list iteration) (env : startEnv) (dpi : BridgeDevicePlugin)
    (setup : hcSetup) (link : linkByName) (evs : list hcSelect) (op : Z) :
  bo ≠ [] →
  Forall (λ it, selected it = TimerFired) pre →
  registers env →
  setup_ok setup → (∀ e, link ≠ LinkOtherError e) →
  HcFsEvent (socketPath dpi) op ∈ evs → Z.testbit op 2 = true →
  hc_result (healthCheck dpi setup link evs) = Returned (errChan_first env) →
  start_result (BridgeDevicePlugin_Start env dpi) = Ret None ∧
  last (restart_loop bo 0
          (pre ++ [plugin_iteration env dpi TimerFired])) =
    WaitFor <$> head bo.
Proof.
  intros Hbo Hpre Hreg (H1 & H2 & H3 & H4 & H5) Hlink Hev Hbit Hhc.
  assert (errChan_first env = None) as Hnil.
  { assert (hc_result (healthCheck dpi setup link evs) = Returned None)
      as Hret.
    { unfold healthCheck. rewrite H1, H2, H3, H4, H5.
      assert (hc_result (healthCheck_loop dpi evs) = Returned None) as Hloop.
      { rewrite healthCheck_loop_result.
        assert (existsb (hc_returns dpi) evs = true) as ->; [|done].
        apply existsb_exists. eexists. split; [by apply list_elem_of_In|].
        apply hc_returns_ends. right. by exists op. }
      destruct link as [s|e|e]; [done..|]. by destruct (Hlink e). }
    congruence. }
  assert (start_result (BridgeDevicePlugin_Start env dpi) = Ret None)
    as Hstart by by rewrite Start_registers_result, Hnil.
  split; [done|].
  assert (in_schedule bo 0) as H0.
  { pose proof (len_pos bo Hbo). unfold in_schedule. lia. }
  rewrite restart_loop_app by done.
  unfold plugin_iteration. rewrite Hstart. simpl.
  destruct bo as [|d bo]; [done|]. simpl. by rewrite last_app.
Qed.

Lemma socket_removal_restarts_plugin_witness :
  last (restart_loop defaultBackoffTime 0
          ([failed_start "bind"; failed_start "bind"] ++
           [plugin_iteration start_all_ok br0 TimerFired])) =
    Some (WaitFor (1 * Second)).
Proof.
  assert (setup_ok setup_without_errors) as Hsetup by (by repeat split).
  refine (proj2 (socket_removal_restarts_plugin defaultBackoffTime
                   [failed_start "bind"; failed_start "bind"]
                   start_all_ok br0 setup_without_errors (LinkFound OperUp)
                   [HcFsEvent (socketPath br0) 4] 4
                   _ _ _ Hsetup _ _ _ _)).
  - done.
  - by repeat constructor.
  - by repeat split.
  - discriminate.
  - apply list_elem_of_here.
  - reflexivity.
  - reflexivity.
Defined.
